(** * tonteki: seven-card hand evaluation and showdown equity

    A shallow embedding of [tonteki.py] and the properties of its evaluator,
    its card encoding, its enumeration of board completions and its equity
    engine (sequential and chunked).

    Conventions.
    - Python [int] is [Z]; list indices and lengths are [nat].
    - Python [str] is a list of Unicode code points ([str := list N]), so that
      [str.split] sees the same whitespace characters as Python does.
    - Python [float] is replaced by exact rationals ([Qc]): [1 / len(winners)]
      and [sum / len(future_patterns)] are exact divisions.
    - A raised exception is a value of [exn]; fallible code lives in
      [result A := exn + A].
    - The two lookup tables [suited.TABLE] and [offsuit.TABLE] are imported
      from modules that are not part of the sources; they are parameters of
      the development. *)

From Stdlib Require Import ZArith QArith Qcanon Lia List.
From stdpp Require Import base numbers list strings gmap.

Local Open Scope Z_scope.

(** ** Exceptions and the error monad *)

(** A Python [str] is a list of code points. *)
Abbreviation char := N (only parsing).
Abbreviation str := (list N) (only parsing).

Inductive exn : Type :=
| KeyError (key : str)      (* [_POS[card]] on an unknown token *)
| ValueError                (* [combinations(_, r)] with [r < 0], [Pool(0)] *)
| ZeroDivisionError         (* division by [len(...)] equal to zero *)
| IndexError.               (* list index out of range *)

Definition result (A : Type) : Type := exn + A.
Definition Ok {A} (a : A) : result A := inr a.
Definition Raise {A} (e : exn) : result A := inl e.

Global Instance result_bind : MBind result := λ A B k m,
  match m with
  | inl e => inl e
  | inr a => k a
  end.

(** [[f(x) for x in l]] with a fallible [f]: the first exception wins. *)
Fixpoint rmap {A B} (f : A → result B) (l : list A) : result (list B) :=
  match l with
  | [] => Ok []
  | x :: l' => y ← f x; ys ← rmap f l'; Ok (y :: ys)
  end.

(** [for x in l: state = f(state, x)] with a fallible body. *)
Fixpoint rfoldl {A B} (f : B → A → result B) (b : B) (l : list A) : result B :=
  match l with
  | [] => Ok b
  | x :: l' => b' ← f b x; rfoldl f b' l'
  end.

(** [l[i]] for [i >= 0]. *)
Definition getitem {A} (l : list A) (i : nat) : result A :=
  match l !! i with
  | Some x => Ok x
  | None => Raise IndexError
  end.

(** [x / n] for a number [x] and a length [n] (true division). *)
Definition truediv (x : Qc) (n : nat) : result Qc :=
  if decide (n = 0%nat) then Raise ZeroDivisionError
  else Ok (x / Qc_of_Z (Z.of_nat n))%Qc.

(** [enumerate(l)]. *)
Definition enumerate {A} (l : list A) : list (nat * A) := imap pair l.

(** [sum(x)] on integers. *)
Definition py_sum (x : list Z) : Z := foldl Z.add 0 x.

(** [list_[s:e]] for [0 <= s] and [0 <= e]. *)
Definition slice {A} (l : list A) (s e : nat) : list A := drop s (take e l).

(** ** Bit patterns *)

(** Number of ON bits of a non-negative integer. *)
Fixpoint popcount_pos (p : positive) : nat :=
  match p with
  | xH => 1
  | xO q => popcount_pos q
  | xI q => S (popcount_pos q)
  end.

Definition popcount (z : Z) : nat :=
  match z with
  | Zpos p => popcount_pos p
  | _ => 0
  end.

(** A CardSet: a 52-bit unsigned integer. *)
Definition cardset (z : Z) : Prop := 0 ≤ z < 2 ^ 52.

(** The binomial coefficient C(n, k), by Pascal's rule. *)
Fixpoint binomial (n k : nat) : nat :=
  match n, k with
  | _, O => 1
  | O, S _ => 0
  | S n', S k' => binomial n' k' + binomial n' k
  end%nat.

(** ** Card notation *)

(** [str.isspace] on one character: the characters at which [str.split()]
    cuts. *)
Definition isspace (c : char) : bool :=
  ((0x09 <=? c) && (c <=? 0x0D) || (0x1C <=? c) && (c <=? 0x20)
   || (c =? 0x85) || (c =? 0xA0) || (c =? 0x1680)
   || (0x2000 <=? c) && (c <=? 0x200A)
   || (c =? 0x2028) || (c =? 0x2029) || (c =? 0x202F)
   || (c =? 0x205F) || (c =? 0x3000))%N.

(** [s.split()]: [word] holds, reversed, the characters of the token being
    read. *)
Fixpoint split_loop (word : str) (s : str) : list str :=
  match s with
  | [] => match word with [] => [] | _ => [reverse word] end
  | c :: s' =>
      if isspace c then
        match word with
        | [] => split_loop [] s'
        | _ => reverse word :: split_loop [] s'
        end
      else split_loop (c :: word) s'
  end.

Definition split (s : str) : list str := split_loop [] s.

(** [str.join(sep, l)]. *)
Fixpoint join (sep : str) (l : list str) : str :=
  match l with
  | [] => []
  | x :: l' => match l' with [] => x | _ => x ++ sep ++ join sep l' end
  end.

(** A literal of ASCII characters as a [str]. *)
Definition lit (s : string) : str := map Ascii.N_of_ascii (String.list_ascii_of_string s).

Definition ranks : list str :=
  map lit ["2"; "3"; "4"; "5"; "6"; "7"; "8"; "9"; "T"; "J"; "Q"; "K"; "A"]%string.

(** The two suit alphabets: ♠ ♡ ♢ ♣ (U+2660..U+2663) and ♤ ♥ ♦ ♧
    (U+2664..U+2667). *)
Definition suits_a : list str := [[0x2660]; [0x2661]; [0x2662]; [0x2663]]%N.
Definition suits_b : list str := [[0x2664]; [0x2665]; [0x2666]; [0x2667]]%N.

(** [codes[rank + suit] = i * 13 + j] for every suit and rank. *)
Definition _define_bit_positions (codes : gmap str Z) (suits : list str) : gmap str Z :=
  foldl (λ codes '(i, suit),
           foldl (λ codes '(j, rank),
                    <[rank ++ suit := Z.of_nat i * 13 + Z.of_nat j]> codes)
                 codes (enumerate ranks))
        codes (enumerate suits).

Definition _POS : gmap str Z :=
  _define_bit_positions (_define_bit_positions ∅ suits_a) suits_b.

(** The token [rank + suit] of the card of suit number [i] and rank number
    [j], in the alphabet [suits]. *)
Definition token (suits : list str) (i j : nat) : str :=
  (ranks !!! j) ++ (suits !!! i).

(** An argument of [_make_bit_pattern] is a string or a list of strings. *)
Inductive arg : Type :=
| Str (s : str)
| Lst (l : list str).

(** [str.join(' ', arg) if isinstance(arg, list) else arg] *)
Definition arg_cards (a : arg) : str :=
  match a with
  | Lst l => join (lit " ") l
  | Str s => s
  end.

(** [pattern |= 1 << _POS[card]] *)
Definition add_card (pattern : Z) (card : str) : result Z :=
  match _POS !! card with
  | Some pos => Ok (Z.lor pattern (Z.shiftl 1 pos))
  | None => Raise (KeyError card)
  end.

Definition _make_bit_pattern (args : list arg) : result Z :=
  rfoldl (λ pattern a, rfoldl add_card pattern (split (arg_cards a))) 0 args.

(** The card tokens of the arguments, the bit positions of the known ones,
    and the union of a list of bit positions. *)
Definition arg_tokens (a : arg) : list str :=
  match a with
  | Str s => split s
  | Lst l => concat (map split l)
  end.

Definition tokens (args : list arg) : list str := concat (map arg_tokens args).

Definition known (card : str) : Prop := is_Some (_POS !! card).

Global Instance known_dec card : Decision (known card).
Proof. unfold known. apply _. Defined.

Definition positions (cards : list str) : list Z := omap (λ card, _POS !! card) cards.

Definition union_of_bits (poss : list Z) : Z :=
  foldr (λ pos acc, Z.lor (Z.shiftl 1 pos) acc) 0 poss.

(** The pattern of a hand on a board, when all their tokens are known. *)
Definition present_of (board hand : str) : Z :=
  union_of_bits (positions (tokens [Str hand; Str board])).

(** ** Boundary conditions of a call *)

(** What the preconditions of [calculate_equity] exclude: an unknown token,
    a board that does not hold 0, 3, 4 or 5 cards, fewer than two active
    holdings, a card given more than once. *)
Definition boundary_invalid (active_hands mucked_hands : list str) (board : str) : Prop :=
  ¬ Forall known (tokens [Lst active_hands; Lst mucked_hands; Str board])
  ∨ length (split board) ∉ [0; 3; 4; 5]%nat
  ∨ (length active_hands < 2)%nat
  ∨ ¬ NoDup (positions (tokens [Lst active_hands; Lst mucked_hands; Str board])).

Definition fails {A} (r : result A) : Prop := ∃ e, r = Raise e.

(** ** Enumeration of board completions *)

(** [itertools.combinations(l, r)]: the [r]-element subsequences of [l], in
    lexicographic order of positions. *)
Fixpoint combinations {A} (l : list A) (r : nat) {struct l} : list (list A) :=
  match r with
  | O => [[]]
  | S r' =>
      match l with
      | [] => []
      | x :: l' => map (cons x) (combinations l' r') ++ combinations l' r
      end
  end.

(** [[1 << i for i in range(52) if ((1 << i) & mask) == 0]]: the
    positions [i] that pass the test, then their bits. *)
Definition free_positions (mask : Z) : list Z :=
  filter (λ i, Z.land (Z.shiftl 1 i) mask = 0) (seqZ 0 52).

Definition free_bits (mask : Z) : list Z :=
  map (λ i, Z.shiftl 1 i) (free_positions mask).

(** The positions below [n] of the ON bits of [z], in increasing order. *)
Definition bits_on (z n : Z) : list Z :=
  filter (λ i, Z.testbit z i = true) (seqZ 0 n).

Definition _all_possibilities (mask r : Z) : result (list Z) :=
  let bits := free_bits mask in
  if decide (r < 0) then Raise ValueError
  else Ok (map py_sum (combinations bits (Z.to_nat r))).

(** ** Winners of one showdown *)

Definition _judge_winners_step (st : Z * list nat) (x : nat * Z) : Z * list nat :=
  let '(best, winners) := st in
  let '(i, rank) := x in
  if decide (rank < best) then (rank, [i])
  else if decide (rank = best) then (best, winners ++ [i])
  else (best, winners).

Definition _judge_winners (ranks : list Z) : list nat :=
  snd (foldl _judge_winners_step (9999, []) (enumerate ranks)).

(** ** Specification vocabulary of the scoring *)

(** [min(ranks)], for a non-empty list. *)
Definition min_rank (ranks : list Z) : Z :=
  match ranks with
  | [] => 0
  | rank :: ranks' => foldr Z.min rank ranks'
  end.

(** The holdings that achieve the minimum rank, by index. *)
Definition winner_set (ranks : list Z) : list nat :=
  filter (λ i, ranks !! i = Some (min_rank ranks)) (seq 0 (length ranks)).

(** The points of one completed board: [1 / |winner_set|] for each winner,
    nothing for the others. *)
Definition points (ranks : list Z) : list Qc :=
  map (λ i, if decide (i ∈ winner_set ranks)
            then (1 / Qc_of_Z (Z.of_nat (length (winner_set ranks))))%Qc
            else 0%Qc)
      (seq 0 (length ranks)).

(** Element-wise sum, and the sum of a vector. *)
Definition vadd (a b : list Qc) : list Qc := zip_with Qcplus a b.
Definition Qc_sum (l : list Qc) : Qc := foldr Qcplus 0%Qc l.

(** The value of [best] after the loop over [ranks]. *)
Definition best_of (ranks : list Z) : Z := foldl Z.min 9999 ranks.

(** ** Chunks *)

(** The generator [_chunk]: [s] is the running start, [rest] what is left of
    [range(d)]. *)
Fixpoint _chunk_loop {A} (list_ : list A) (n d s : nat) (rest : list nat) : list (list A) :=
  match rest with
  | [] => []
  | i :: rest' =>
      let e := ((i + 1) * n / d)%nat in
      slice list_ s e :: _chunk_loop list_ n d e rest'
  end.

Definition _chunk {A} (list_ : list A) (d : nat) : list (list A) :=
  _chunk_loop list_ (length list_) d 0 (seq 0 d).

(** ** The hand evaluator and the equity engine *)

Section Engine.

(** [suited.TABLE]: 13-bit suit pattern to (octet contribution, flush
    value). Both tables are taken as total functions of the key, as their
    interface states them. *)
Variable suited_TABLE : Z → Z * Z.
(** [offsuit.TABLE]: octet key to strength value. *)
Variable offsuit_TABLE : Z → Z.

(** One turn of the loop [for i in range(0, 52, 13)], on the state
    [(octet, value)]. *)
Definition evaluate_step (pattern : Z) (st : Z * Z) (i : Z) : Z * Z :=
  let '(octet, value) := st in
  let '(o, v) := suited_TABLE (Z.land (Z.shiftr pattern i) 0x1fff) in
  (octet + o, Z.min v value).

Definition evaluate (pattern : Z) : Z :=
  let '(octet, value) := foldl (evaluate_step pattern) (0, 9999) [0; 13; 26; 39] in
  Z.min (offsuit_TABLE octet) value.

(** [sums[i] += 1 / len(winners)] *)
Definition award (winners : list nat) (sums : list Qc) (i : nat) : result (list Qc) :=
  s ← getitem sums i;
  share ← truediv 1 (length winners);
  Ok (<[i := (s + share)%Qc]> sums).

(** The body of the loop of [_func], for one future pattern. *)
Definition _func_step (present_patterns : list Z) (sums : list Qc) (future : Z)
  : result (list Qc) :=
  let ranks := map (λ present, evaluate (Z.lor present future)) present_patterns in
  let winners := _judge_winners ranks in
  rfoldl (award winners) sums winners.

Definition _func (present_patterns future_patterns : list Z) : result (list Qc) :=
  rfoldl (_func_step present_patterns)
         (replicate (length present_patterns) 0%Qc) future_patterns.

(** The three lines that both entry points start with. *)
Definition patterns (active_hands mucked_hands : list str) (board : str)
  : result (list Z * list Z) :=
  present_patterns ← rmap (λ hand, _make_bit_pattern [Str hand; Str board]) active_hands;
  mask_pattern ← _make_bit_pattern [Lst active_hands; Lst mucked_hands; Str board];
  future_patterns ← _all_possibilities mask_pattern (5 - Z.of_nat (length (split board)));
  Ok (present_patterns, future_patterns).

Definition calculate_equity (active_hands mucked_hands : list str) (board : str)
  : result (list Qc) :=
  '(present_patterns, future_patterns) ← patterns active_hands mucked_hands board;
  sums ← _func present_patterns future_patterns;
  rmap (λ sum, truediv sum (length future_patterns)) sums.

(** [multiprocessing.cpu_count()] is the parameter [cpu_count];
    [Pool(cpu_count)] refuses a count below one; [pool.starmap] applies
    [_func] to every argument tuple and returns the results in order. *)
Definition calculate_equity_in_parallel (cpu_count : nat)
    (active_hands mucked_hands : list str) (board : str) : result (list Qc) :=
  '(present_patterns, future_patterns) ← patterns active_hands mucked_hands board;
  _ ← (if decide (cpu_count < 1)%nat then Raise ValueError else Ok ());
  let args := map (λ chunked, (present_patterns, chunked))
                  (_chunk future_patterns cpu_count) in
  results ← rmap (λ '(p, c), _func p c) args;
  let n := length active_hands in
  sums ← rfoldl (λ a b, rmap (λ i, x ← getitem a i; y ← getitem b i; Ok (x + y)%Qc)
                             (seq 0 n))
                (replicate n 0%Qc) results;
  rmap (λ sum, truediv sum (length future_patterns)) sums.

(** ** Specification vocabulary *)

(** The ranks of the holdings on one completed board. *)
Definition ranks_of (present_patterns : list Z) (future : Z) : list Z :=
  map (λ present, evaluate (Z.lor present future)) present_patterns.

(** The accumulated points of the holdings over a list of completed
    boards, starting from [sums]. *)
Definition scores_from (sums : list Qc) (present_patterns futures : list Z) : list Qc :=
  foldl (λ sums future, vadd sums (points (ranks_of present_patterns future)))
        sums futures.

Definition scores (present_patterns futures : list Z) : list Qc :=
  scores_from (replicate (length present_patterns) 0%Qc) present_patterns futures.

(** The 13-bit slice of suit [s] (0 = spades ... 3 = clubs). *)
Definition suit_slice (pattern : Z) (s : Z) : Z :=
  Z.land (Z.shiftr pattern (13 * s)) (2 ^ 13 - 1).

Definition octet_of (pattern : Z) : Z :=
  foldr Z.add 0 (map (λ s, fst (suited_TABLE (suit_slice pattern s))) [0; 1; 2; 3]).

Definition best_flush_value (pattern : Z) : Z :=
  foldr Z.min 9999 (map (λ s, snd (suited_TABLE (suit_slice pattern s))) [0; 1; 2; 3]).

End Engine.

(** ** Sample inputs *)

(** A♠ A♣ against K♠ K♣ on the board A♡ K♦ 2♠ 3♣ 4♡, and the lone holding
    A♠ A♣. *)
Definition sample_hands : list str :=
  [token suits_a 0 12 ++ lit " " ++ token suits_a 3 12;
   token suits_a 0 11 ++ lit " " ++ token suits_a 3 11].

Definition sample_board : str :=
  join (lit " ") [token suits_a 1 12; token suits_b 2 11; token suits_a 0 0;
                  token suits_a 3 1; token suits_a 1 2].

Definition lone_hand : list str := [token suits_a 0 12 ++ lit " " ++ token suits_a 3 12].

(** Stand-ins for the two tables, which are not part of the sources: no
    flush value, and a strength that only depends on the octet sum. *)
Definition sample_suited (k : Z) : Z * Z := (k, 9999).
Definition sample_offsuit (k : Z) : Z := 7462 - k mod 7462.

(** ** Vocabulary of the further properties *)

(** A token: a non-empty string without whitespace. *)
Definition is_token (t : str) : Prop := t ≠ [] ∧ Forall (λ c, isspace c = false) t.

(** A string of whitespace only. *)
Definition blank (s : str) : Prop := Forall (λ c, isspace c = true) s.

(** An argument that holds whitespace only. *)
Definition blank_arg (a : arg) : Prop :=
  match a with
  | Str s => blank s
  | Lst l => Forall blank l
  end.

(** Twenty-four holdings that use up 48 cards: the ranks 2 to K of every
    suit, two by two. *)
Definition crowded_hands : list str :=
  flat_map (λ i, map (λ k, token suits_a i (2 * k) ++ lit " " ++ token suits_a i (2 * k + 1))
                     (seq 0 6))
           (seq 0 4).

(** Unfolding hints for the proofs below. *)
Create HintDb engine discriminated.
Create HintDb scoring discriminated.
#[global] Hint Unfold evaluate octet_of best_flush_value suit_slice evaluate_step : engine.
#[global] Hint Unfold ranks_of _func_step _func scores scores_from : scoring.

Ltac unfold_engine := unfold calculate_equity, calculate_equity_in_parallel.
Ltac unfold_scores := unfold scores.

(** * Properties *)

(** ** Chunks *)

Section Chunk.
Context {A : Type}.
Implicit Types (l : list A) (s m e n d i j k : nat).
Local Open Scope nat_scope.

Lemma length_slice l s e : e ≤ length l → length (slice l s e) = e - s.
Proof. intros He. unfold slice. rewrite length_drop, length_take. lia. Qed.

Lemma slice_lookup l s e k :
  k < e - s → slice l s e !! k = l !! (s + k).
Proof.
  intros Hk. unfold slice. rewrite lookup_drop, lookup_take_lt by lia. done.
Qed.

Lemma slice_app l s m e :
  s ≤ m → m ≤ e → slice l s m ++ slice l m e = slice l s e.
Proof.
  intros Hsm Hme. unfold slice.
  rewrite <- (take_drop m (take e l)) at 2.
  rewrite take_take, Nat.min_l by done.
  destruct (decide (s ≤ length (take m l))) as [Hs|Hs].
  - by rewrite drop_app_le.
  - rewrite length_take in Hs.
    rewrite (drop_ge (take m l)) by (rewrite length_take; lia).
    rewrite (drop_ge (take e l) m) by (rewrite length_take; lia).
    rewrite drop_ge; [done|]. rewrite length_app, length_take. cbn. lia.
Qed.

Lemma slice_all l : slice l 0 (length l) = l.
Proof. unfold slice. by rewrite drop_0, firstn_all. Qed.

(** The running start [s] of the generator is the previous end. *)
Lemma _chunk_loop_map l n d k : ∀ i,
  _chunk_loop l n d (i * n / d) (seq i k)
  = map (λ j, slice l (j * n / d) ((j + 1) * n / d)) (seq i k).
Proof.
  induction k as [|k IH]; intros i; [done|].
  cbn [seq _chunk_loop map]. f_equal.
  rewrite <- (IH (S i)). by replace (i + 1) with (S i) by lia.
Qed.

Lemma _chunk_map l d :
  _chunk l d
  = map (λ j, slice l (j * length l / d) ((j + 1) * length l / d)) (seq 0 d).
Proof.
  unfold _chunk. rewrite <- _chunk_loop_map. by rewrite Nat.mul_0_l, Nat.Div0.div_0_l.
Qed.

Lemma boundary_mono n d i : i * n / d ≤ (i + 1) * n / d.
Proof. apply Nat.Div0.div_le_mono. nia. Qed.

Lemma boundary_last n d : 1 ≤ d → d * n / d = n.
Proof. intros. rewrite Nat.mul_comm. apply Nat.div_mul. lia. Qed.

Lemma boundary_le n d i : 1 ≤ d → i ≤ d → i * n / d ≤ n.
Proof.
  intros Hd Hi. rewrite <- (boundary_last n d Hd) at 2.
  apply Nat.Div0.div_le_mono. nia.
Qed.

(** Two consecutive boundaries are [n / d] or [n / d + 1] apart. *)
Lemma boundary_gap n d i :
  1 ≤ d → n / d ≤ (i + 1) * n / d - i * n / d ≤ n / d + 1.
Proof.
  intros Hd.
  pose proof (Nat.div_mod_eq n d) as Hn.
  pose proof (Nat.mod_upper_bound n d ltac:(lia)) as Hr.
  set (q := n / d) in *. set (r := n mod d) in *.
  assert (Hi : ∀ k, k * n / d = k * q + k * r / d).
  { intros k. replace (k * n) with (k * q * d + k * r) by nia.
    rewrite Nat.div_add_l by lia. done. }
  rewrite !Hi.
  assert (i * r / d ≤ (i + 1) * r / d) by (apply Nat.Div0.div_le_mono; nia).
  assert ((i + 1) * r / d ≤ i * r / d + 1).
  { replace (i * r / d + 1) with ((i * r + 1 * d) / d)
      by (rewrite Nat.div_add by lia; done).
    apply Nat.Div0.div_le_mono. nia. }
  nia.
Qed.

Lemma concat_slices l (b : nat → nat) k : ∀ i,
  (∀ j, b j ≤ b (j + 1)) →
  concat (map (λ j, slice l (b j) (b (j + 1))) (seq i k)) = slice l (b i) (b (i + k)).
Proof.
  induction k as [|k IH]; intros i Hb.
  - cbn. rewrite Nat.add_0_r. unfold slice.
    rewrite drop_ge; [done|]. rewrite length_take. lia.
  - cbn [seq map concat]. rewrite IH by done.
    replace (S i + k) with (i + S k) by lia.
    replace (S i) with (i + 1) by lia.
    apply slice_app; [done|].
    clear -Hb. induction k as [|k IHk]; [done|].
    etrans; [exact IHk|]. replace (i + S (S k)) with (i + S k + 1) by lia. done.
Qed.

Lemma concat_chunk l d : 1 ≤ d → concat (_chunk l d) = l.
Proof.
  intros Hd. rewrite _chunk_map.
  rewrite (concat_slices l (λ j, j * length l / d) d 0).
  - cbn beta. rewrite Nat.mul_0_l, Nat.Div0.div_0_l, Nat.add_0_l, boundary_last by done.
    apply slice_all.
  - intros j. apply boundary_mono.
Qed.

(** C6. For a list [l] of length [n] and a worker count [d ≥ 1],
    [_chunk l d] yields exactly [d] slices; the [i]-th one is the contiguous
    slice of [l] from [i * n / d] to [(i + 1) * n / d] (integer division),
    with these boundaries in order and within the list; the slices
    concatenated in order give [l] back; and the sizes of any two slices
    differ by at most one. *)
Theorem chunk_partition l d :
  1 ≤ d →
  let n := length l in
  length (_chunk l d) = d
  ∧ (∀ i, i < d →
       i * n / d ≤ (i + 1) * n / d ≤ n
       ∧ _chunk l d !! i = Some (slice l (i * n / d) ((i + 1) * n / d))
       ∧ length (slice l (i * n / d) ((i + 1) * n / d)) = (i + 1) * n / d - i * n / d
       ∧ ∀ k, k < (i + 1) * n / d - i * n / d →
           slice l (i * n / d) ((i + 1) * n / d) !! k = l !! (i * n / d + k))
  ∧ concat (_chunk l d) = l
  ∧ (∀ c1 c2, c1 ∈ _chunk l d → c2 ∈ _chunk l d → length c1 ≤ length c2 + 1).
Proof.
  intros Hd n. rewrite _chunk_map. fold n. repeat split.
  - by rewrite length_map, length_seq.
  - apply boundary_mono.
  - apply boundary_le; lia.
  - rewrite list_lookup_fmap, lookup_seq_lt by done. done.
  - apply length_slice. apply boundary_le; lia.
  - apply slice_lookup.
  - rewrite <- _chunk_map. by apply concat_chunk.
  - intros c1 c2 [i [-> [_ Hi]%elem_of_seq]]%list_elem_of_fmap
                 [j [-> [_ Hj]%elem_of_seq]]%list_elem_of_fmap.
    rewrite !length_slice by (apply boundary_le; lia).
    pose proof (boundary_gap n d i Hd). pose proof (boundary_gap n d j Hd). lia.
Qed.

End Chunk.

Lemma chunk_partition_witness :
  length (_chunk [1; 2; 3; 4; 5; 6; 7] 3) = 3%nat
  ∧ concat (_chunk [1; 2; 3; 4; 5; 6; 7] 3) = [1; 2; 3; 4; 5; 6; 7].
Proof.
  destruct (chunk_partition [1; 2; 3; 4; 5; 6; 7] 3) as (Hlen & _ & Hcat & _).
  - lia.
  - split; [exact Hlen | exact Hcat].
Defined.

(** ** Card notation *)

(** The table is only ever unfolded by [vm_compute]. *)
#[global] Opaque _POS.

Lemma _POS_token i j :
  (i < 4)%nat → (j < 13)%nat →
  _POS !! token suits_a i j = Some (13 * Z.of_nat i + Z.of_nat j)
  ∧ _POS !! token suits_b i j = Some (13 * Z.of_nat i + Z.of_nat j).
Proof.
  intros Hi Hj.
  do 4 (destruct i as [|i]; [do 13 (destruct j as [|j]; [by vm_compute|]); lia|]).
  lia.
Qed.

Lemma _POS_entries key pos :
  _POS !! key = Some pos →
  ∃ i j, (i < 4)%nat ∧ (j < 13)%nat
         ∧ (key = token suits_a i j ∨ key = token suits_b i j)
         ∧ pos = 13 * Z.of_nat i + Z.of_nat j.
Proof.
  intros H%elem_of_map_to_list.
  assert (Forall (λ kp : str * Z,
            ∃ i j, (i < 4)%nat ∧ (j < 13)%nat
                   ∧ (kp.1 = token suits_a i j ∨ kp.1 = token suits_b i j)
                   ∧ kp.2 = 13 * Z.of_nat i + Z.of_nat j) (map_to_list _POS)) as Hall.
  { set (entries := map_to_list _POS). vm_compute in entries. subst entries.
    repeat (apply Forall_cons; split;
      [ match goal with
        | |- ∃ _, _ =>
            cbn [fst snd];
            match goal with
            | |- context [ ?pos = 13 * _ + _ ] =>
                exists (Z.to_nat (pos / 13)), (Z.to_nat (pos mod 13))
            end;
            split; [vm_compute; lia|]; split; [vm_compute; lia|];
            split; [(by left; vm_compute) || (by right; vm_compute) | by vm_compute]
        end | ]).
    apply Forall_nil_2. }
  rewrite Forall_forall in Hall. exact (Hall _ H).
Qed.

Lemma _POS_range key pos : _POS !! key = Some pos → 0 ≤ pos < 52.
Proof. intros H. apply _POS_entries in H as (i & j & Hi & Hj & _ & Hpos). lia. Qed.

(** C8. The token table [_POS] sends the card of suit number [i < 4] and
    rank number [j < 13] to bit [13 * i + j], written in either suit
    alphabet; these are all its entries; distinct cards have distinct bits and
    every bit of 0..51 is the bit of a card; so each suit is a block of 13
    bits, with rank 2 at offset 0 and the ace at offset 12. *)
Theorem bit_positions_bijection :
  (∀ i j, (i < 4)%nat → (j < 13)%nat →
     _POS !! token suits_a i j = Some (13 * Z.of_nat i + Z.of_nat j)
     ∧ _POS !! token suits_b i j = _POS !! token suits_a i j)
  ∧ (∀ key pos, _POS !! key = Some pos →
       0 ≤ pos < 52
       ∧ ∃ i j, (i < 4)%nat ∧ (j < 13)%nat
                ∧ (key = token suits_a i j ∨ key = token suits_b i j))
  ∧ (∀ i j i' j', (i < 4)%nat → (j < 13)%nat → (i' < 4)%nat → (j' < 13)%nat →
       _POS !! token suits_a i j = _POS !! token suits_a i' j' → i = i' ∧ j = j')
  ∧ (∀ pos, 0 ≤ pos < 52 →
       ∃ i j, (i < 4)%nat ∧ (j < 13)%nat ∧ _POS !! token suits_a i j = Some pos)
  ∧ ranks !! 0%nat = Some (lit "2") ∧ ranks !! 12%nat = Some (lit "A")
  ∧ length ranks = 13%nat ∧ length suits_a = 4%nat ∧ length suits_b = 4%nat.
Proof.
  split; [|split; [|split; [|split]]].
  - intros i j Hi Hj. destruct (_POS_token i j Hi Hj) as [Ha Hb].
    split; [exact Ha | exact (eq_trans Hb (eq_sym Ha))].
  - intros key pos H. split; [by eapply _POS_range|].
    destruct (_POS_entries key pos H) as (i & j & ? & ? & ? & _). eauto.
  - intros i j i' j' Hi Hj Hi' Hj'.
    destruct (_POS_token i j Hi Hj) as [-> _].
    destruct (_POS_token i' j' Hi' Hj') as [-> _].
    intros [=]. lia.
  - intros pos Hpos. exists (Z.to_nat (pos / 13)), (Z.to_nat (pos mod 13)).
    assert (0 ≤ pos / 13 < 4) by (split; [apply Z.div_pos|apply Z.div_lt_upper_bound]; lia).
    pose proof (Z.mod_pos_bound pos 13 ltac:(lia)).
    split; [lia|]. split; [lia|].
    destruct (_POS_token (Z.to_nat (pos / 13)) (Z.to_nat (pos mod 13))) as [-> _]; [lia..|].
    f_equal. rewrite !Z2Nat.id by lia. pose proof (Z.div_mod pos 13). lia.
  - done.
Qed.

(** ** Bit patterns from card tokens *)

Section Loops.
Context {A B : Type}.

Lemma bind_Ok (a : A) (k : A → result B) : (Ok a ≫= k) = k a.
Proof. done. Qed.

Lemma bind_Raise (e : exn) (k : A → result B) : (Raise e ≫= k) = Raise e.
Proof. done. Qed.

Lemma rfoldl_app (f : B → A → result B) b l1 l2 :
  rfoldl f b (l1 ++ l2) = (b' ← rfoldl f b l1; rfoldl f b' l2).
Proof.
  revert b. induction l1 as [|x l1 IH]; intros b; [done|].
  cbn [app rfoldl]. destruct (f b x) as [e|b']; [done|]. apply IH.
Qed.

Lemma rmap_Ok (f : A → result B) (g : A → B) l :
  (∀ x, x ∈ l → f x = Ok (g x)) → rmap f l = Ok (map g l).
Proof.
  induction l as [|x l IH]; intros Hf; [done|].
  cbn [rmap map]. rewrite Hf by left. cbn. rewrite IH; [done|].
  intros y Hy. apply Hf. by right.
Qed.

End Loops.

Lemma split_loop_space word a b :
  split_loop word (a ++ lit " " ++ b) = split_loop word a ++ split_loop [] b.
Proof.
  revert word. induction a as [|c a IH]; intros word.
  - cbn. by destruct word.
  - cbn [app split_loop]. destruct (isspace c); [destruct word|]; by rewrite IH.
Qed.

(** Joining with a space and splitting again gives the tokens of the
    elements. *)
Lemma split_join l : split (join (lit " ") l) = concat (map split l).
Proof.
  unfold split. induction l as [|x l IH]; [done|].
  cbn [join map concat]. destruct l as [|y l].
  - by rewrite app_nil_r.
  - by rewrite split_loop_space, IH.
Qed.

Lemma split_arg_cards a : split (arg_cards a) = arg_tokens a.
Proof. destruct a as [s|l]; [done|]. apply split_join. Qed.

Lemma _make_bit_pattern_tokens args :
  _make_bit_pattern args = rfoldl add_card 0 (tokens args).
Proof.
  unfold _make_bit_pattern, tokens. generalize 0.
  induction args as [|a args IH]; intros p; [done|].
  cbn [rfoldl map concat]. rewrite rfoldl_app, split_arg_cards.
  destruct (rfoldl add_card p (arg_tokens a)) as [e|p']; [done|]. apply IH.
Qed.

Lemma foldl_lor_union p poss :
  foldl (λ p pos, Z.lor p (Z.shiftl 1 pos)) p poss = Z.lor p (union_of_bits poss).
Proof.
  revert p. induction poss as [|pos poss IH]; intros p; cbn [foldl union_of_bits foldr].
  - by rewrite Z.lor_0_r.
  - by rewrite IH, Z.lor_assoc.
Qed.

Lemma add_card_Some p card pos :
  _POS !! card = Some pos → add_card p card = Ok (Z.lor p (Z.shiftl 1 pos)).
Proof. unfold add_card. by intros ->. Qed.

Lemma add_card_None p card :
  _POS !! card = None → add_card p card = Raise (KeyError card).
Proof. unfold add_card. by intros ->. Qed.

Lemma positions_cons_Some card cards pos :
  _POS !! card = Some pos → positions (card :: cards) = pos :: positions cards.
Proof. unfold positions. cbn. by intros ->. Qed.

Lemma add_cards_known p cards :
  Forall known cards →
  rfoldl add_card p cards = Ok (Z.lor p (union_of_bits (positions cards))).
Proof.
  intros Hk. rewrite <- foldl_lor_union. revert p.
  induction Hk as [|card cards [pos Hpos] _ IH]; intros p; [done|].
  cbn [rfoldl]. rewrite (add_card_Some _ _ _ Hpos), (positions_cons_Some _ _ _ Hpos).
  apply IH.
Qed.

Lemma add_cards_unknown p cards :
  ¬ Forall known cards →
  ∃ card, card ∈ cards ∧ _POS !! card = None
          ∧ rfoldl add_card p cards = Raise (KeyError card).
Proof.
  revert p. induction cards as [|c cards IH]; intros p Hk.
  - destruct Hk. constructor.
  - cbn [rfoldl]. destruct (_POS !! c) as [pos|] eqn:Hc.
    + rewrite (add_card_Some _ _ _ Hc).
      destruct (IH (Z.lor p (Z.shiftl 1 pos))) as (card & Hin & Hnone & Hr).
      { intros Hall. apply Hk. constructor; [by exists pos | done]. }
      exists card. split; [by right|]. exact (conj Hnone Hr).
    + rewrite (add_card_None _ _ Hc). exists c. split; [by left|]. exact (conj Hc eq_refl).
Qed.

Lemma positions_elem j cards :
  j ∈ positions cards ↔ ∃ card, card ∈ cards ∧ _POS !! card = Some j.
Proof. unfold positions. apply list_elem_of_omap. Qed.

Lemma positions_range cards : Forall (λ pos, 0 ≤ pos < 52) (positions cards).
Proof.
  apply Forall_forall. intros j Hj. apply positions_elem in Hj.
  destruct Hj as (card & _ & Hj). by eapply _POS_range.
Qed.

Lemma union_of_bits_testbit poss j :
  Forall (λ pos, 0 ≤ pos) poss →
  Z.testbit (union_of_bits poss) j = true ↔ j ∈ poss.
Proof.
  induction 1 as [|pos poss Hpos _ IH]; cbn [union_of_bits foldr].
  - rewrite Z.bits_0. split; [done|]. by intros ?%elem_of_nil.
  - rewrite Z.lor_spec, orb_true_iff, IH, elem_of_cons.
    rewrite Z.shiftl_1_l, Z.pow2_bits_eqb, Z.eqb_eq by done.
    split; (intros [?|?]; [by left|by right]).
Qed.

Lemma lor_cardset a b : cardset a → cardset b → cardset (Z.lor a b).
Proof.
  unfold cardset. intros [Ha Ha'] [Hb Hb']. split; [by apply Z.lor_nonneg|].
  destruct (decide (Z.lor a b = 0)) as [->|Hne]; [lia|].
  assert (0 < Z.lor a b) by (pose proof (proj2 (Z.lor_nonneg a b) (conj Ha Hb)); lia).
  apply Z.log2_lt_pow2; [done|]. rewrite Z.log2_lor by done.
  destruct (decide (a = 0)) as [->|]; destruct (decide (b = 0)) as [->|];
    cbn; try lia;
    repeat match goal with
           | H : ?x ≠ 0 |- _ =>
               assert (Z.log2 x < 52) by (apply Z.log2_lt_pow2; lia); clear H
           end; cbn; lia.
Qed.

Lemma union_of_bits_cardset poss :
  Forall (λ pos, 0 ≤ pos < 52) poss → cardset (union_of_bits poss).
Proof.
  induction 1 as [|pos poss Hpos _ IH]; cbn [union_of_bits foldr].
  - unfold cardset. lia.
  - apply lor_cardset; [|done]. unfold cardset. rewrite Z.shiftl_1_l.
    split; [apply Z.pow_nonneg; lia|]. apply Z.pow_lt_mono_r; lia.
Qed.

Lemma _make_bit_pattern_known args :
  Forall known (tokens args) →
  _make_bit_pattern args = Ok (union_of_bits (positions (tokens args))).
Proof.
  intros Hk. rewrite _make_bit_pattern_tokens, add_cards_known by done.
  by rewrite Z.lor_0_l.
Qed.

Lemma _make_bit_pattern_Ok args p :
  _make_bit_pattern args = Ok p →
  Forall known (tokens args) ∧ p = union_of_bits (positions (tokens args)).
Proof.
  intros Hp. destruct (decide (Forall known (tokens args))) as [Hk|Hk].
  - split; [done|]. rewrite _make_bit_pattern_known in Hp by done. by injection Hp.
  - rewrite _make_bit_pattern_tokens in Hp.
    destruct (add_cards_unknown 0 _ Hk) as (card & _ & _ & Hr).
    rewrite Hr in Hp. discriminate.
Qed.

(** The bits of the union are the positions of the cards. *)
Lemma union_positions_testbit cards j :
  Z.testbit (union_of_bits (positions cards)) j = true
  ↔ ∃ card, card ∈ cards ∧ _POS !! card = Some j.
Proof.
  rewrite union_of_bits_testbit, positions_elem; [done|].
  eapply Forall_impl; [apply positions_range|]. cbn. lia.
Qed.

Lemma union_positions_same_cards cards cards' :
  (∀ card, card ∈ cards' ↔ card ∈ cards) →
  union_of_bits (positions cards') = union_of_bits (positions cards).
Proof.
  intros Hsame. apply Z.bits_inj'. intros j _. apply eq_true_iff_eq.
  rewrite !union_positions_testbit. by setoid_rewrite Hsame.
Qed.

(** C10. When every token is a key of the table, [_make_bit_pattern] returns
    the bitwise OR of [1 << position] over the card tokens of all its
    arguments: a 52-bit pattern whose ON bits are exactly the positions of
    those tokens. The result depends on the set of tokens only: arguments with
    the same tokens in another order, or with tokens repeated, give the same
    pattern, so a card given twice is merged, not rejected. *)
Theorem make_bit_pattern_union args :
  Forall known (tokens args) →
  _make_bit_pattern args = Ok (union_of_bits (positions (tokens args)))
  ∧ cardset (union_of_bits (positions (tokens args)))
  ∧ (∀ j, Z.testbit (union_of_bits (positions (tokens args))) j = true
          ↔ ∃ card, card ∈ tokens args ∧ _POS !! card = Some j)
  ∧ (∀ args', (∀ card, card ∈ tokens args' ↔ card ∈ tokens args) →
              _make_bit_pattern args' = _make_bit_pattern args).
Proof.
  intros Hk. split; [by apply _make_bit_pattern_known|].
  split; [apply union_of_bits_cardset, positions_range|].
  split; [apply union_positions_testbit|].
  intros args' Hsame. rewrite !_make_bit_pattern_known; [|done|].
  - f_equal. by apply union_positions_same_cards.
  - rewrite Forall_forall in Hk |- *. intros card Hc. apply Hk, Hsame, Hc.
Qed.

Lemma make_bit_pattern_union_witness :
  let a_spade := token suits_a 0 12 in
  let k_diamond := token suits_b 2 11 in
  _make_bit_pattern [Lst [a_spade ++ lit " " ++ k_diamond]; Str a_spade]
  = Ok (2 ^ 12 + 2 ^ 37).
Proof.
  intros a_spade k_diamond.
  destruct (make_bit_pattern_union [Lst [a_spade ++ lit " " ++ k_diamond]; Str a_spade])
    as (Hr & _).
  - apply (bool_decide_unpack _). by vm_compute.
  - rewrite Hr. by vm_compute.
Defined.

(** ** Enumeration of board completions *)

Lemma binomial_0_r n : binomial n 0 = 1%nat.
Proof. by destruct n. Qed.

(** Pascal's definition agrees with the factorial formula. *)
Lemma binomial_fact n : ∀ k, (k ≤ n)%nat →
  (binomial n k * (fact k * fact (n - k)) = fact n)%nat.
Proof.
  assert (Hgt : ∀ n k, (n < k)%nat → binomial n k = 0%nat).
  { clear. induction n as [|n IH]; intros [|k] Hk; try lia; [done|].
    cbn. rewrite !IH by lia. done. }
  induction n as [|n IH]; intros [|k] Hk; try lia.
  - done.
  - rewrite binomial_0_r, Nat.sub_0_r. change (fact 0) with 1%nat. lia.
  - destruct (decide (k = n)) as [->|Hne].
    + cbn [binomial]. rewrite (Hgt n (S n)) by lia. specialize (IH n ltac:(lia)).
      rewrite Nat.sub_diag in *. cbn [fact] in *. nia.
    + pose proof (IH k ltac:(lia)) as IH1. pose proof (IH (S k) ltac:(lia)) as IH2.
      cbn [binomial]. replace (S n - S k)%nat with (n - k)%nat by lia.
      replace (n - k)%nat with (S (n - S k)) in * by lia.
      cbn [fact] in *. nia.
Qed.

Section Combinations.
Context {A : Type}.
Implicit Types (l c : list A) (r : nat).

Lemma combinations_0 l : combinations l 0 = [[]].
Proof. by destruct l. Qed.

Lemma length_combinations l : ∀ r,
  length (combinations l r) = binomial (length l) r.
Proof.
  induction l as [|x l IH]; intros [|r]; try done.
  cbn [combinations length binomial].
  by rewrite length_app, length_fmap, !IH.
Qed.

(** A combination is a subsequence of [r] elements. *)
Lemma combinations_sublist l : ∀ r c,
  c ∈ combinations l r → c `sublist_of` l ∧ length c = r.
Proof.
  induction l as [|x l IH]; intros [|r] c Hc.
  - apply list_elem_of_singleton in Hc as ->. split; [constructor|done].
  - by apply elem_of_nil in Hc.
  - apply list_elem_of_singleton in Hc as ->. split; [apply sublist_nil_l|done].
  - cbn [combinations] in Hc. apply elem_of_app in Hc as [Hc|Hc].
    + apply list_elem_of_fmap in Hc as (c' & -> & Hc').
      destruct (IH _ _ Hc') as [Hs Hl]. split; [by constructor|]. cbn. by rewrite Hl.
    + destruct (IH _ _ Hc) as [Hs Hl]. split; [by constructor|done].
Qed.

(** Every subsequence is enumerated. *)
Lemma sublist_combinations l c :
  c `sublist_of` l → c ∈ combinations l (length c).
Proof.
  induction 1 as [|x c l _ IH|x c l _ IH].
  - by apply list_elem_of_singleton.
  - cbn [length combinations]. apply elem_of_app. left.
    by apply list_elem_of_fmap_2.
  - destruct c as [|y c].
    + rewrite combinations_0. by apply list_elem_of_singleton.
    + cbn [length combinations] in *. apply elem_of_app. by right.
Qed.

Lemma NoDup_combinations l : ∀ r, NoDup l → NoDup (combinations l r).
Proof.
  induction l as [|x l IH]; intros [|r] Hl.
  - apply NoDup_singleton.
  - constructor.
  - apply NoDup_singleton.
  - apply NoDup_cons in Hl as [Hx Hl]. cbn [combinations].
    apply NoDup_app. split; [|split].
    + apply NoDup_fmap_2; [|by apply IH]. by intros c1 c2 [=].
    + intros c Hc Hc'. apply list_elem_of_fmap in Hc as (c' & -> & _).
      apply combinations_sublist in Hc' as [Hs _].
      apply Hx. eapply sublist_subseteq; [exact Hs|]. by left.
    + by apply IH.
Qed.

Lemma combinations_map {B} (f : A → B) l : ∀ r,
  combinations (map f l) r = map (map f) (combinations l r).
Proof.
  induction l as [|x l IH]; intros [|r]; try done.
  cbn [map combinations]. rewrite !IH, map_app, !map_map. done.
Qed.

End Combinations.

Section Filter.
Context {A : Type} (P Q : A → Prop) `{!∀ x, Decision (P x), !∀ x, Decision (Q x)}.

Lemma filter_ext_in (l : list A) :
  (∀ x, x ∈ l → P x ↔ Q x) → filter P l = filter Q l.
Proof.
  induction l as [|x l IH]; intros HPQ; [done|].
  assert (filter P l = filter Q l) as IH' by (apply IH; intros; apply HPQ; by right).
  destruct (decide (P x)) as [HP|HP].
  - rewrite !filter_cons_True; [by rewrite IH'|by apply HPQ; [left|]|done].
  - rewrite !filter_cons_False; [done| |done]. intros HQ. apply HP, HPQ; [left|done].
Qed.

Lemma filter_map {B} (f : B → A) (l : list B) :
  filter P (map f l) = map f (filter (λ x, P (f x)) l).
Proof.
  induction l as [|x l IH]; [done|]. cbn [map].
  destruct (decide (P (f x))).
  - rewrite !filter_cons_True by done. cbn [map]. by rewrite IH.
  - by rewrite !filter_cons_False.
Qed.

Lemma length_filter_complement (l : list A) :
  (length (filter P l) + length (filter (λ x, ¬ P x) l) = length l)%nat.
Proof.
  rewrite <- length_app. by rewrite filter_app_complement.
Qed.

End Filter.

(** Filtering a duplicate-free list by membership in one of its
    subsequences returns the subsequence. *)
Lemma filter_sublist {A} `{!EqDecision A} (c l : list A) :
  c `sublist_of` l → NoDup l → filter (.∈ c) l = c.
Proof.
  induction 1 as [|x c l Hs IH|x c l Hs IH]; intros Hl; [done| |].
  - apply NoDup_cons in Hl as [Hx Hl].
    rewrite filter_cons_True by left. f_equal.
    etrans; [|exact (IH Hl)]. apply filter_ext_in. intros y Hy.
    rewrite elem_of_cons. split; [|by right]. intros [->|?]; [done|done].
  - apply NoDup_cons in Hl as [Hx Hl].
    rewrite filter_cons_False; [by apply IH|].
    intros Hc. apply Hx. by eapply sublist_subseteq.
Qed.

(** ** Counting bits *)

Lemma seqZ_0_S (n : nat) :
  seqZ 0 (Z.of_nat (S n)) = 0 :: map (Z.add 1) (seqZ 0 (Z.of_nat n)).
Proof.
  rewrite seqZ_cons by lia. f_equal.
  change (map (Z.add 1) (seqZ 0 (Z.of_nat n))) with (Z.add 1 <$> seqZ 0 (Z.of_nat n)).
  rewrite fmap_add_seqZ. f_equal. lia.
Qed.

Lemma bits_on_double a (b : bool) (n : nat) :
  bits_on (2 * a + Z.b2z b) (Z.of_nat (S n))
  = (if b then [0] else []) ++ map (Z.add 1) (bits_on a (Z.of_nat n)).
Proof.
  unfold bits_on. rewrite seqZ_0_S.
  assert (filter (λ i, Z.testbit (2 * a + Z.b2z b) i = true)
                 (map (Z.add 1) (seqZ 0 (Z.of_nat n)))
          = map (Z.add 1) (filter (λ i, Z.testbit a i = true) (seqZ 0 (Z.of_nat n))))
    as Htail.
  { rewrite filter_map. f_equal. apply filter_ext_in.
    intros i [Hi _]%elem_of_seqZ.
    replace (1 + i) with (Z.succ i) by lia. by rewrite Z.testbit_succ_r. }
  pose proof (Z.testbit_0_r a b) as H0. destruct b.
  - rewrite filter_cons_True by done. by rewrite Htail.
  - rewrite filter_cons_False by (rewrite H0; done). by rewrite Htail.
Qed.

Lemma bits_on_0 n : bits_on 0 n = [].
Proof.
  unfold bits_on. induction (seqZ 0 n) as [|i l IH]; [done|].
  rewrite filter_cons_False; [done|]. by rewrite Z.bits_0.
Qed.

Lemma popcount_pos_bits p : ∀ n : nat,
  Zpos p < 2 ^ Z.of_nat n → popcount_pos p = length (bits_on (Zpos p) (Z.of_nat n)).
Proof.
  induction p as [q IH|q IH|]; intros [|n] Hp; try (cbn in Hp; lia);
    rewrite Nat2Z.inj_succ, Z.pow_succ_r in Hp by lia.
  - change (Zpos q~1) with (2 * Zpos q + Z.b2z true).
    rewrite bits_on_double, length_app, length_map. cbn [popcount_pos length].
    rewrite <- IH by lia. done.
  - change (Zpos q~0) with (2 * Zpos q + Z.b2z false).
    rewrite bits_on_double, length_app, length_map. cbn [popcount_pos length].
    rewrite <- IH by lia. done.
  - change 1 with (2 * 0 + Z.b2z true).
    by rewrite bits_on_double, bits_on_0.
Qed.

(** [popcount] counts the ON bits of a CardSet. *)
Lemma popcount_bits z : cardset z → popcount z = length (bits_on z 52).
Proof.
  intros [Hz Hz']. destruct z as [|p|p]; [by rewrite bits_on_0| |lia].
  apply (popcount_pos_bits p 52). exact Hz'.
Qed.

Lemma land_bit_0 i z : 0 ≤ i → Z.land (Z.shiftl 1 i) z = 0 ↔ Z.testbit z i = false.
Proof.
  intros Hi. rewrite Z.shiftl_1_l. split.
  - intros H. apply (f_equal (λ x, Z.testbit x i)) in H.
    rewrite Z.land_spec, Z.pow2_bits_true, Z.bits_0 in H by done. done.
  - intros H. apply Z.bits_inj'. intros j Hj.
    rewrite Z.land_spec, Z.pow2_bits_eqb, Z.bits_0 by done.
    destruct (Z.eqb_spec i j) as [->|]; [by rewrite H|done].
Qed.

Lemma free_positions_bits mask :
  free_positions mask = filter (λ i, ¬ Z.testbit mask i = true) (seqZ 0 52).
Proof.
  unfold free_positions. apply filter_ext_in. intros i [Hi _]%elem_of_seqZ.
  rewrite land_bit_0 by done. by destruct (Z.testbit mask i).
Qed.

Lemma length_free_positions mask :
  cardset mask → length (free_positions mask) = (52 - popcount mask)%nat.
Proof.
  intros Hm. rewrite popcount_bits, free_positions_bits by done. unfold bits_on.
  pose proof (length_filter_complement (λ i, Z.testbit mask i = true) (seqZ 0 52)) as H.
  rewrite length_seqZ in H. change (Z.to_nat 52) with 52%nat in H. lia.
Qed.

Lemma free_positions_sublist mask : free_positions mask `sublist_of` seqZ 0 52.
Proof. apply sublist_filter. Qed.

(** ** Sums of distinct bits *)

Lemma foldl_add a l : foldl Z.add a l = a + foldl Z.add 0 l.
Proof.
  revert a. induction l as [|y l IH]; intros a; cbn [foldl]; [lia|].
  rewrite (IH (a + y)), (IH (0 + y)). lia.
Qed.

Lemma py_sum_cons x l : py_sum (x :: l) = x + py_sum l.
Proof. unfold py_sum. cbn [foldl]. by rewrite foldl_add. Qed.

(** The sum of the bits at distinct positions is their union. *)
Lemma py_sum_bits idx :
  NoDup idx → Forall (λ i, 0 ≤ i) idx →
  py_sum (map (λ i, Z.shiftl 1 i) idx) = union_of_bits idx.
Proof.
  induction 1 as [|i idx Hi _ IH]; intros Hpos; [done|].
  apply Forall_cons in Hpos as [Hi0 Hpos].
  cbn [map union_of_bits foldr]. rewrite py_sum_cons, IH by done.
  fold (union_of_bits idx).
  assert (Z.land (Z.shiftl 1 i) (union_of_bits idx) = 0) as Hdisj.
  { apply land_bit_0; [done|]. apply not_true_is_false.
    by rewrite union_of_bits_testbit. }
  by rewrite Z.add_nocarry_lxor, Z.lxor_lor.
Qed.

Lemma sublist_seqZ_range c n :
  c `sublist_of` seqZ 0 n → NoDup c ∧ Forall (λ i, 0 ≤ i < n) c.
Proof.
  intros Hs. split; [eapply sublist_NoDup; [apply NoDup_seqZ|exact Hs]|].
  apply Forall_forall. intros i Hi.
  apply (sublist_subseteq _ _ Hs), elem_of_seqZ in Hi. lia.
Qed.

Lemma bits_on_union c :
  c `sublist_of` seqZ 0 52 → bits_on (union_of_bits c) 52 = c.
Proof.
  intros Hs. destruct (sublist_seqZ_range _ _ Hs) as [_ Hr].
  rewrite <- (filter_sublist c (seqZ 0 52) Hs (NoDup_seqZ _ _)) at 2.
  unfold bits_on. apply list_filter_iff. intros i.
  apply union_of_bits_testbit. eapply Forall_impl; [exact Hr|]. cbn. lia.
Qed.

Lemma _all_possibilities_unions mask r :
  0 ≤ r →
  _all_possibilities mask r
  = Ok (map union_of_bits (combinations (free_positions mask) (Z.to_nat r))).
Proof.
  intros Hr. unfold _all_possibilities. rewrite decide_False by lia. f_equal.
  unfold free_bits. rewrite combinations_map, map_map.
  apply map_ext_in. intros c Hc%list_elem_of_In%combinations_sublist.
  destruct Hc as [Hs _].
  destruct (sublist_seqZ_range c 52) as [Hnd Hrg];
    [etrans; [exact Hs|apply free_positions_sublist]|].
  apply py_sum_bits; [done|]. eapply Forall_impl; [exact Hrg|]. cbn. lia.
Qed.

(** What one enumerated completion looks like. *)
Lemma future_pattern_spec mask c :
  c `sublist_of` free_positions mask →
  cardset (union_of_bits c)
  ∧ popcount (union_of_bits c) = length c
  ∧ Z.land (union_of_bits c) mask = 0.
Proof.
  intros Hs.
  assert (c `sublist_of` seqZ 0 52) as Hs'
    by (etrans; [exact Hs|apply free_positions_sublist]).
  destruct (sublist_seqZ_range c 52 Hs') as [Hnd Hrg].
  assert (cardset (union_of_bits c)) as Hc by by apply union_of_bits_cardset.
  split; [done|]. split.
  - by rewrite popcount_bits, bits_on_union.
  - apply Z.bits_inj'. intros j Hj. rewrite Z.land_spec, Z.bits_0.
    destruct (Z.testbit (union_of_bits c) j) eqn:Hb; [|done]. cbn.
    apply union_of_bits_testbit in Hb; [|eapply Forall_impl; [exact Hrg|]; cbn; lia].
    apply (sublist_subseteq _ _ Hs), list_elem_of_filter in Hb as [Hfree _].
    by apply land_bit_0.
Qed.

Lemma NoDup_future_patterns mask r :
  NoDup (map union_of_bits (combinations (free_positions mask) r)).
Proof.
  apply (NoDup_fmap_2_strong union_of_bits).
  - intros c1 c2 [Hs1 _]%combinations_sublist [Hs2 _]%combinations_sublist Heq.
    rewrite <- (bits_on_union c1), <- (bits_on_union c2), Heq; [done|..];
      (etrans; [eassumption|apply free_positions_sublist]).
  - apply NoDup_combinations. eapply sublist_NoDup; [|apply free_positions_sublist].
    apply NoDup_seqZ.
Qed.

(** Every CardSet of [r] bits that avoids the mask is enumerated. *)
Lemma sublist_filter_impl {A} (P Q : A → Prop)
    `{!∀ x, Decision (P x), !∀ x, Decision (Q x)} (l : list A) :
  (∀ x, x ∈ l → P x → Q x) → filter P l `sublist_of` filter Q l.
Proof.
  induction l as [|x l IH]; intros HPQ; [done|].
  assert (filter P l `sublist_of` filter Q l) as IH'
    by (apply IH; intros y Hy; apply HPQ; by right).
  destruct (decide (P x)) as [HP|HP].
  - rewrite !filter_cons_True; [by constructor|by apply HPQ; [left|]|done].
  - rewrite (filter_cons_False P) by done.
    destruct (decide (Q x)).
    + rewrite filter_cons_True by done. by constructor.
    + by rewrite filter_cons_False.
Qed.

Lemma union_bits_on x : cardset x → union_of_bits (bits_on x 52) = x.
Proof.
  intros [Hx0 Hx1]. apply Z.bits_inj'. intros j Hj. apply eq_true_iff_eq.
  rewrite union_of_bits_testbit.
  - unfold bits_on. rewrite list_elem_of_filter, elem_of_seqZ.
    split; [by intros [? _]|]. intros Hb. split; [done|]. split; [done|].
    destruct (decide (j < 52)) as [|Hge]; [lia|].
    rewrite (Z.bits_above_log2 x j) in Hb; [done|done|].
    destruct (decide (x = 0)) as [->|]; [cbn; lia|].
    assert (Z.log2 x < 52) by (apply Z.log2_lt_pow2; lia). lia.
  - apply Forall_forall. intros i [_ Hi%elem_of_seqZ]%list_elem_of_filter. lia.
Qed.

Lemma _all_possibilities_complete mask x :
  cardset x → Z.land x mask = 0 →
  ∃ futures, _all_possibilities mask (Z.of_nat (popcount x)) = Ok futures ∧ x ∈ futures.
Proof.
  intros Hx Hdisj. eexists. split; [apply _all_possibilities_unions; lia|].
  rewrite Nat2Z.id.
  apply list_elem_of_fmap. exists (bits_on x 52). split; [by rewrite union_bits_on|].
  rewrite (popcount_bits x Hx). apply sublist_combinations.
  rewrite free_positions_bits. unfold bits_on.
  apply sublist_filter_impl. intros j [Hj _]%elem_of_seqZ Hb Hm.
  apply (f_equal (λ z, Z.testbit z j)) in Hdisj.
  rewrite Z.land_spec, Z.bits_0, Hb, Hm in Hdisj. done.
Qed.

(** C2. For a 52-bit used-card mask and [r ≥ 0], [_all_possibilities]
    returns C(52 - popcount mask, r) patterns, pairwise distinct; each is a
    CardSet with exactly [r] bits set and no bit in common with the mask. In
    particular, when the mask is the one [calculate_equity] builds from the
    active hands, the mucked hands and the board, no enumerated pattern holds
    the bit of a card named in any of them. *)
Theorem all_possibilities_spec mask r :
  cardset mask → 0 ≤ r →
  ∃ futures,
    _all_possibilities mask r = Ok futures
    ∧ length futures = binomial (52 - popcount mask) (Z.to_nat r)
    ∧ NoDup futures
    ∧ (∀ x, x ∈ futures →
         cardset x ∧ popcount x = Z.to_nat r ∧ Z.land x mask = 0)
    ∧ (∀ active_hands mucked_hands board,
         _make_bit_pattern [Lst active_hands; Lst mucked_hands; Str board] = Ok mask →
         ∀ x card pos,
           x ∈ futures →
           card ∈ tokens [Lst active_hands; Lst mucked_hands; Str board] →
           _POS !! card = Some pos → Z.testbit x pos = false).
Proof.
  intros Hm Hr. eexists. split; [by apply _all_possibilities_unions|].
  assert (∀ x, x ∈ map union_of_bits (combinations (free_positions mask) (Z.to_nat r)) →
               cardset x ∧ popcount x = Z.to_nat r ∧ Z.land x mask = 0) as Hall.
  { intros x (c & -> & Hc)%list_elem_of_fmap.
    apply combinations_sublist in Hc as [Hs <-]. by apply future_pattern_spec. }
  split; [|split; [|split]].
  - by rewrite length_map, length_combinations, length_free_positions.
  - apply NoDup_future_patterns.
  - exact Hall.
  - intros active_hands mucked_hands board Hmask x card pos Hx Hcard Hpos.
    apply _make_bit_pattern_Ok in Hmask as [_ ->].
    destruct (Hall x Hx) as (_ & _ & Hdisj).
    apply (f_equal (λ z, Z.testbit z pos)) in Hdisj.
    rewrite Z.land_spec, Z.bits_0 in Hdisj.
    assert (Z.testbit (union_of_bits (positions
              (tokens [Lst active_hands; Lst mucked_hands; Str board]))) pos = true)
      as Hbit by (apply union_positions_testbit; eauto).
    rewrite Hbit, andb_true_r in Hdisj. exact Hdisj.
Qed.

Lemma all_possibilities_spec_witness :
  ∃ futures, _all_possibilities 0xff 2 = Ok futures ∧ length futures = 946%nat.
Proof.
  destruct (all_possibilities_spec 0xff 2) as (futures & Hf & Hlen & _).
  - unfold cardset. lia.
  - lia.
  - exists futures. split; [exact Hf|]. rewrite Hlen. by vm_compute.
Defined.

(** ** Winners of one showdown *)

Lemma best_of_snoc ranks rank : best_of (ranks ++ [rank]) = Z.min (best_of ranks) rank.
Proof. unfold best_of. by rewrite foldl_app. Qed.

Lemma best_of_le ranks : best_of ranks ≤ 9999 ∧ Forall (λ rank, best_of ranks ≤ rank) ranks.
Proof.
  induction ranks as [|rank ranks [IH1 IH2]] using rev_ind; [by split|].
  rewrite best_of_snoc. split; [lia|].
  apply Forall_app. split; [eapply Forall_impl; [exact IH2|]; cbn; lia|].
  apply Forall_singleton. lia.
Qed.

Lemma enumerate_snoc {A} (l : list A) x :
  enumerate (l ++ [x]) = enumerate l ++ [(length l, x)].
Proof. unfold enumerate. rewrite imap_app. cbn. by rewrite Nat.add_0_r. Qed.

(** The state of the loop of [_judge_winners] after the whole list: [best]
    is the least of 9999 and the ranks, [winners] the indices that hold it. *)
Lemma _judge_winners_loop ranks :
  foldl _judge_winners_step (9999, []) (enumerate ranks)
  = (best_of ranks,
     filter (λ i, ranks !! i = Some (best_of ranks)) (seq 0 (length ranks))).
Proof.
  induction ranks as [|rank ranks IH] using rev_ind; [done|].
  rewrite enumerate_snoc, foldl_app, IH. cbn [foldl _judge_winners_step].
  rewrite best_of_snoc, length_app, Nat.add_1_r, seq_S, filter_app. cbn [Nat.add].
  destruct (best_of_le ranks) as [_ Hle].
  assert (∀ v, filter (λ i, (ranks ++ [rank]) !! i = Some v) (seq 0 (length ranks))
               = filter (λ i, ranks !! i = Some v) (seq 0 (length ranks))) as Hpre.
  { intros v. apply filter_ext_in. intros i [_ Hi]%elem_of_seq.
    by rewrite lookup_app_l by lia. }
  assert ((ranks ++ [rank]) !! length ranks = Some rank) as Hlast
    by (rewrite lookup_app_r, Nat.sub_diag by lia; done).
  rewrite Hpre.
  destruct (decide (rank < best_of ranks)) as [Hlt|Hge].
  - rewrite Z.min_r by lia. f_equal.
    rewrite filter_cons_True, filter_nil by done.
    replace (filter _ (seq 0 (length ranks))) with (@nil nat); [done|].
    symmetry. apply elem_of_nil_inv. intros i [Hi Hin]%list_elem_of_filter.
    rewrite Forall_forall in Hle. apply list_elem_of_lookup_2, Hle in Hi. lia.
  - destruct (decide (rank = best_of ranks)) as [Heq|Hne].
    + rewrite Z.min_l by lia. f_equal. f_equal.
      rewrite filter_cons_True by (rewrite Hlast; by f_equal). done.
    + rewrite Z.min_l by lia. f_equal.
      rewrite filter_cons_False, filter_nil, app_nil_r; [done|].
      rewrite Hlast. intros [=]. done.
Qed.

Lemma min_rank_cons rank ranks :
  min_rank (rank :: ranks) = foldr Z.min rank ranks.
Proof. done. Qed.

Lemma foldl_min_out a b ranks :
  foldl Z.min (Z.min a b) ranks = Z.min b (foldl Z.min a ranks).
Proof.
  revert a. induction ranks as [|r ranks IH]; intros a; cbn [foldl]; [lia|].
  rewrite <- IH. f_equal. lia.
Qed.

Lemma foldr_min_foldl a ranks : foldr Z.min a ranks = foldl Z.min a ranks.
Proof.
  revert a. induction ranks as [|rank ranks IH]; intros a; [done|].
  cbn [foldr foldl]. by rewrite IH, foldl_min_out.
Qed.

(** On strength values, none above 9999, [best] is the minimum rank. *)
Lemma best_of_min_rank ranks :
  ranks ≠ [] → Forall (λ rank, rank ≤ 9999) ranks → best_of ranks = min_rank ranks.
Proof.
  destruct ranks as [|rank ranks]; [done|]. intros _ [Hr _]%Forall_cons.
  rewrite min_rank_cons, foldr_min_foldl. unfold best_of. cbn [foldl].
  by rewrite Z.min_r.
Qed.

Lemma _judge_winners_winner_set ranks :
  Forall (λ rank, rank ≤ 9999) ranks → _judge_winners ranks = winner_set ranks.
Proof.
  intros Hle. unfold _judge_winners, winner_set. rewrite _judge_winners_loop. cbn [snd].
  destruct (decide (ranks = [])) as [->|Hne]; [done|].
  by rewrite best_of_min_rank.
Qed.

(** Above the initial value 9999 of [best] no rank is ever a winner; the
    ranks that [evaluate] returns never are. *)
Example _judge_winners_above_9999 : _judge_winners [10000; 10001] = [].
Proof. reflexivity. Qed.

Lemma min_rank_elem ranks : ranks ≠ [] → min_rank ranks ∈ ranks.
Proof.
  destruct ranks as [|rank ranks]; [done|]. intros _. rewrite min_rank_cons.
  revert rank. induction ranks as [|r ranks IH]; intros rank; cbn [foldr]; [by left|].
  destruct (Z.min_spec r (foldr Z.min rank ranks)) as [[_ ->]|[_ ->]].
  - right. by left.
  - pose proof (IH rank) as Hin. apply elem_of_cons in Hin as [Heq|Hin].
    + rewrite Heq. by left.
    + right. by right.
Qed.

Lemma winner_set_nonempty ranks : ranks ≠ [] → winner_set ranks ≠ [].
Proof.
  intros Hne. apply min_rank_elem, list_elem_of_lookup in Hne as [i Hi].
  intros Hnil.
  assert (i ∈ winner_set ranks) as Hin.
  { apply list_elem_of_filter. split; [done|].
    apply elem_of_seq. apply lookup_lt_Some in Hi. lia. }
  rewrite Hnil in Hin. by apply elem_of_nil in Hin.
Qed.

Lemma winner_set_NoDup ranks : NoDup (winner_set ranks).
Proof. apply NoDup_filter, NoDup_seq. Qed.

Lemma winner_set_lt ranks i : i ∈ winner_set ranks → (i < length ranks)%nat.
Proof. intros [_ Hi%elem_of_seq]%list_elem_of_filter. lia. Qed.

(** ** The scoring step *)

Lemma Qc_of_nat_ne_0 (k : nat) : k ≠ 0%nat → Qc_of_Z (Z.of_nat k) ≠ 0%Qc.
Proof. rewrite <- Z2Qc_inj_0. intros Hk Heq. apply Z2Qc_inj in Heq. lia. Qed.

Lemma Qc_of_nat_pos (k : nat) : k ≠ 0%nat → (0 < Qc_of_Z (Z.of_nat k))%Qc.
Proof. intros Hk. rewrite <- Z2Qc_inj_0. apply (proj1 (Z2Qc_inj_lt _ _)). lia. Qed.

Lemma truediv_Ok x (n : nat) :
  n ≠ 0%nat → truediv x n = Ok (x / Qc_of_Z (Z.of_nat n))%Qc.
Proof. intros Hn. unfold truediv. by rewrite decide_False. Qed.

Lemma getitem_Some {A} (l : list A) i x : l !! i = Some x → getitem l i = Ok x.
Proof. unfold getitem. by intros ->. Qed.

Lemma award_Ok winners sums i s :
  sums !! i = Some s → winners ≠ [] →
  award winners sums i
  = Ok (<[i := (s + 1 / Qc_of_Z (Z.of_nat (length winners)))%Qc]> sums).
Proof.
  intros Hs Hwin. unfold award. rewrite (getitem_Some _ _ _ Hs). cbn.
  rewrite truediv_Ok by by destruct winners. done.
Qed.

(** The loop [for i in winners: sums[i] += 1 / len(winners)], run over the
    duplicate-free indices [ws]. *)
Lemma rfoldl_award winners ws : ∀ sums,
  (ws ≠ [] → winners ≠ []) → NoDup ws → (∀ i, i ∈ ws → (i < length sums)%nat) →
  rfoldl (award winners) sums ws
  = Ok (imap (λ i s, if decide (i ∈ ws)
                     then (s + 1 / Qc_of_Z (Z.of_nat (length winners)))%Qc else s) sums).
Proof.
  induction ws as [|w ws IH]; intros sums Hne Hnd Hlt.
  - cbn [rfoldl]. f_equal. apply list_eq. intros i.
    rewrite list_lookup_imap. destruct (sums !! i); [|done]. cbn.
    rewrite decide_False; [done|]. apply not_elem_of_nil.
  - apply NoDup_cons in Hnd as [Hw Hnd].
    destruct (lookup_lt_is_Some_2 sums w) as [s Hs]; [apply Hlt; by left|].
    assert (winners ≠ []) as Hwin by by apply Hne.
    cbn [rfoldl]. rewrite (award_Ok _ _ _ _ Hs Hwin). cbn.
    rewrite IH; [|done|done|].
    + f_equal. apply list_eq. intros i. rewrite !list_lookup_imap.
      destruct (decide (i = w)) as [->|Hiw].
      * rewrite list_lookup_insert_eq by (by eapply lookup_lt_Some).
        rewrite Hs. cbn. rewrite decide_False by done. rewrite decide_True by left. done.
      * rewrite list_lookup_insert_ne by done. destruct (sums !! i); [|done]. cbn.
        f_equal. destruct (decide (i ∈ ws)).
        -- rewrite decide_True by by right. done.
        -- rewrite decide_False; [done|]. by intros [?|?]%elem_of_cons.
    + intros i Hi. rewrite length_insert. apply Hlt. by right.
Qed.

Lemma length_points ranks : length (points ranks) = length ranks.
Proof. unfold points. by rewrite length_map, length_seq. Qed.

Lemma lookup_points ranks i :
  (i < length ranks)%nat →
  points ranks !! i
  = Some (if decide (i ∈ winner_set ranks)
          then (1 / Qc_of_Z (Z.of_nat (length (winner_set ranks))))%Qc else 0%Qc).
Proof.
  intros Hi. unfold points. rewrite list_lookup_fmap, lookup_seq_lt by done. done.
Qed.

Lemma credit_points ranks sums :
  length sums = length ranks →
  imap (λ i s, if decide (i ∈ winner_set ranks)
               then (s + 1 / Qc_of_Z (Z.of_nat (length (winner_set ranks))))%Qc else s) sums
  = vadd sums (points ranks).
Proof.
  intros Hlen. apply list_eq. intros i. unfold vadd.
  rewrite list_lookup_imap, lookup_zip_with.
  destruct (sums !! i) as [s|] eqn:Hs; [|done]. cbn.
  rewrite lookup_points by (apply lookup_lt_Some in Hs; lia). cbn.
  f_equal. destruct (decide (i ∈ winner_set ranks)); [done|]. by rewrite Qcplus_0_r.
Qed.

Lemma length_vadd a b : length a = length b → length (vadd a b) = length a.
Proof. intros Hab. unfold vadd. rewrite length_zip_with. lia. Qed.

(** ** Vectors of points *)

Local Open Scope Qc_scope.

Lemma vadd_assoc a b c : vadd (vadd a b) c = vadd a (vadd b c).
Proof.
  unfold vadd. revert b c. induction a as [|x a IH]; intros [|y b] [|z c]; try done.
  cbn. by rewrite IH, Qcplus_assoc.
Qed.

Lemma vadd_zeros_l a : vadd (replicate (length a) 0) a = a.
Proof.
  unfold vadd. induction a as [|x a IH]; [done|]. cbn. by rewrite IH, Qcplus_0_l.
Qed.

Lemma Qc_sum_cons x l : Qc_sum (x :: l) = x + Qc_sum l.
Proof. done. Qed.

Lemma Qc_sum_vadd a b :
  length a = length b → Qc_sum (vadd a b) = Qc_sum a + Qc_sum b.
Proof.
  unfold vadd. revert b. induction a as [|x a IH]; intros [|y b] Hlen; try done.
  cbn [zip_with]. rewrite !Qc_sum_cons, IH by (cbn in Hlen; lia). ring.
Qed.

Lemma Qc_sum_zeros n : Qc_sum (replicate n 0) = 0.
Proof.
  induction n as [|n IH]; [done|]. cbn [replicate].
  by rewrite Qc_sum_cons, IH, Qcplus_0_l.
Qed.

Lemma Qc_sum_div l (n : Qc) : Qc_sum (map (λ s, s / n) l) = Qc_sum l / n.
Proof.
  induction l as [|x l IH]; cbn [map].
  - unfold Qcdiv. by rewrite Qcmult_0_l.
  - rewrite !Qc_sum_cons, IH. unfold Qcdiv. ring.
Qed.

(** Adding up an indicator counts the elements that satisfy it. *)
Lemma Qc_sum_indicator (P : nat → Prop) `{!∀ i, Decision (P i)} (q : Qc) l :
  Qc_sum (map (λ i, if decide (P i) then q else 0) l)
  = Qc_of_Z (Z.of_nat (length (filter P l))) * q.
Proof.
  induction l as [|i l IH]; cbn [map].
  - rewrite filter_nil. change (Z.of_nat (length [])) with 0%Z.
    by rewrite Z2Qc_inj_0, Qcmult_0_l.
  - rewrite Qc_sum_cons, IH.
    destruct (decide (P i)).
    + rewrite filter_cons_True by done. cbn [length].
      rewrite Nat2Z.inj_succ, <- Z.add_1_l, Z2Qc_inj_add, Z2Qc_inj_1. ring.
    + rewrite filter_cons_False by done. ring.
Qed.

Lemma winner_set_filter ranks :
  filter (.∈ winner_set ranks) (seq 0 (length ranks)) = winner_set ranks.
Proof. apply filter_sublist; [apply sublist_filter|apply NoDup_seq]. Qed.

(** The points of one completed board add up to one. *)
Lemma Qc_sum_points ranks : ranks ≠ [] → Qc_sum (points ranks) = 1.
Proof.
  intros Hne. unfold points. rewrite Qc_sum_indicator, winner_set_filter.
  apply Qcmult_div_r, Qc_of_nat_ne_0.
  apply winner_set_nonempty in Hne. by destruct (winner_set ranks).
Qed.

Lemma share_bounds (k : nat) : k ≠ 0%nat → 0 ≤ 1 / Qc_of_Z (Z.of_nat k) ≤ 1.
Proof.
  intros Hk. pose proof (Qc_of_nat_pos k Hk) as Hpos.
  unfold Qcdiv. rewrite Qcmult_1_l. split.
  - apply Qclt_le_weak. by apply Qcinv_pos.
  - apply (Qcmult_le_mono_pos_r _ _ _ Hpos).
    rewrite Qcmult_inv_l, Qcmult_1_l by by apply Qc_of_nat_ne_0.
    rewrite <- Z2Qc_inj_1. apply (proj1 (Z2Qc_inj_le _ _)). lia.
Qed.

Lemma points_bounds ranks : Forall (λ q, 0 ≤ q ≤ 1) (points ranks).
Proof.
  unfold points. apply Forall_forall. intros q (i & -> & _)%list_elem_of_fmap.
  destruct (decide (i ∈ winner_set ranks)) as [Hi|]; [|done].
  apply share_bounds. by destruct (winner_set ranks); [apply elem_of_nil in Hi|].
Qed.

Lemma vadd_bounds (hi : Z) a b :
  Forall (λ s, 0 ≤ s ≤ Qc_of_Z hi) a → Forall (λ q, 0 ≤ q ≤ 1) b →
  Forall (λ s, 0 ≤ s ≤ Qc_of_Z (hi + 1)) (vadd a b).
Proof.
  unfold vadd. intros Ha. revert b.
  induction Ha as [|x a [Hx0 Hx1] _ IH]; intros [|y b] Hb; try by constructor.
  apply Forall_cons in Hb as [[Hy0 Hy1] Hb]. cbn. constructor; [|by apply IH].
  rewrite Z2Qc_inj_add, Z2Qc_inj_1. split.
  - by apply Qcplus_nonneg_nonneg.
  - by apply Qcplus_le_compat.
Qed.

Local Close Scope Qc_scope.

Lemma binomial_pos n : ∀ k, (k ≤ n)%nat → (0 < binomial n k)%nat.
Proof.
  induction n as [|n IH]; intros [|k] Hk; cbn; try lia.
  specialize (IH k ltac:(lia)). lia.
Qed.

Lemma rmap_length {A B} (f : A → result B) l l' :
  rmap f l = Ok l' → length l' = length l.
Proof.
  revert l'. induction l as [|x l IH]; intros l' Hl; cbn in Hl.
  - by injection Hl as <-.
  - destruct (f x) as [e|y]; [done|]. cbn in Hl.
    destruct (rmap f l) as [e|ys]; [done|]. cbn in Hl. injection Hl as <-.
    cbn. f_equal. by apply IH.
Qed.

Lemma rmap_truediv sums (n : nat) :
  n ≠ 0%nat →
  rmap (λ sum, truediv sum n) sums = Ok (map (λ s, s / Qc_of_Z (Z.of_nat n))%Qc sums).
Proof. intros Hn. apply rmap_Ok. intros s _. by apply truediv_Ok. Qed.

(** ** The patterns of a call *)

Lemma rmap_Raise {A B} (f : A → result B) l e :
  rmap f l = Raise e → ∃ x, x ∈ l ∧ f x = Raise e.
Proof.
  induction l as [|x l IH]; intros Hr; cbn in Hr; [done|].
  destruct (f x) as [e'|y] eqn:Hx.
  - exists x. split; [by left|]. cbn in Hr. rewrite Hx.
    injection Hr as ->. done.
  - cbn in Hr. destruct (rmap f l) as [e'|ys]; [|done]. cbn in Hr.
    destruct IH as (x' & Hin & Hx'); [done|]. exists x'. split; [by right|done].
Qed.

Lemma tokens_call active_hands mucked_hands board :
  tokens [Lst active_hands; Lst mucked_hands; Str board]
  = concat (map split active_hands) ++ concat (map split mucked_hands) ++ split board.
Proof. unfold tokens. cbn. by rewrite app_nil_r. Qed.

Lemma tokens_hand hand board :
  tokens [Str hand; Str board] = split hand ++ split board.
Proof. unfold tokens. cbn. by rewrite app_nil_r. Qed.

Lemma elem_of_concat_split hand hands card :
  hand ∈ hands → card ∈ split hand → card ∈ concat (map split hands).
Proof.
  induction 1 as [hand hands|hand h hands _ IH]; intros Hc; cbn; apply elem_of_app.
  - by left.
  - right. by apply IH.
Qed.

(** The tokens of a hand on the board are among those of the whole call. *)
Lemma tokens_hand_call active_hands mucked_hands board hand card :
  hand ∈ active_hands → card ∈ tokens [Str hand; Str board] →
  card ∈ tokens [Lst active_hands; Lst mucked_hands; Str board].
Proof.
  intros Hh. rewrite tokens_hand, tokens_call, !elem_of_app.
  intros [Hc|Hc]; [left; by eapply elem_of_concat_split|right; by right].
Qed.

Lemma patterns_Ok active_hands mucked_hands board mask :
  _make_bit_pattern [Lst active_hands; Lst mucked_hands; Str board] = Ok mask →
  (length (split board) ≤ 5)%nat →
  patterns active_hands mucked_hands board
  = Ok (map (present_of board) active_hands,
        map union_of_bits
            (combinations (free_positions mask) (5 - length (split board)))).
Proof.
  intros Hmask Hlen. unfold patterns.
  rewrite (rmap_Ok _ (present_of board)).
  - rewrite bind_Ok, Hmask, bind_Ok, _all_possibilities_unions, bind_Ok by lia.
    do 4 f_equal. lia.
  - intros hand Hh. apply _make_bit_pattern_known.
    apply _make_bit_pattern_Ok in Hmask as [Hk _].
    rewrite Forall_forall in Hk |- *. intros card Hc. apply Hk.
    by eapply tokens_hand_call.
Qed.

Lemma mask_cardset args mask : _make_bit_pattern args = Ok mask → cardset mask.
Proof.
  intros H. apply _make_bit_pattern_Ok in H as [_ ->].
  apply union_of_bits_cardset, positions_range.
Qed.

(** An unknown token anywhere in the call raises the [KeyError] of the table
    lookup while the patterns are built. *)
Lemma patterns_KeyError active_hands mucked_hands board :
  ¬ Forall known (tokens [Lst active_hands; Lst mucked_hands; Str board]) →
  ∃ card, card ∈ tokens [Lst active_hands; Lst mucked_hands; Str board]
          ∧ _POS !! card = None
          ∧ patterns active_hands mucked_hands board = Raise (KeyError card).
Proof.
  intros Hk. unfold patterns.
  destruct (rmap (λ hand, _make_bit_pattern [Str hand; Str board]) active_hands)
    as [e|present] eqn:Hp.
  - apply rmap_Raise in Hp as (hand & Hh & He).
    rewrite _make_bit_pattern_tokens in He.
    destruct (decide (Forall known (tokens [Str hand; Str board]))) as [Hk'|Hk'].
    + by rewrite add_cards_known in He.
    + destruct (add_cards_unknown 0 _ Hk') as (card & Hc & Hnone & Hr).
      exists card. split; [by eapply tokens_hand_call|]. split; [done|].
      rewrite Hr in He. by injection He as <-.
  - rewrite _make_bit_pattern_tokens.
    destruct (add_cards_unknown 0 _ Hk) as (card & Hc & Hnone & Hr).
    exists card. split; [done|]. split; [done|]. by rewrite bind_Ok, Hr.
Qed.

(** ** The evaluator *)

Section EngineProperties.

Context (suited_TABLE : Z → Z * Z) (offsuit_TABLE : Z → Z).

Local Abbreviation evaluate := (evaluate suited_TABLE offsuit_TABLE).
Local Abbreviation octet_of := (octet_of suited_TABLE).
Local Abbreviation best_flush_value := (best_flush_value suited_TABLE).
Local Abbreviation ranks_of := (ranks_of suited_TABLE offsuit_TABLE).
Local Abbreviation _func_step := (_func_step suited_TABLE offsuit_TABLE).
Local Abbreviation _func := (_func suited_TABLE offsuit_TABLE).
Local Abbreviation scores_from := (scores_from suited_TABLE offsuit_TABLE).
Local Abbreviation scores := (scores suited_TABLE offsuit_TABLE).
Local Abbreviation calculate_equity := (calculate_equity suited_TABLE offsuit_TABLE).
Local Abbreviation calculate_equity_in_parallel :=
  (calculate_equity_in_parallel suited_TABLE offsuit_TABLE).

Lemma evaluate_unfold pattern :
  evaluate pattern = Z.min (offsuit_TABLE (octet_of pattern)) (best_flush_value pattern).
Proof.
  autounfold with engine; cbn [foldl foldr map].
  change (2 ^ 13 - 1) with 0x1fff.
  change (13 * 0) with 0; change (13 * 1) with 13;
    change (13 * 2) with 26; change (13 * 3) with 39.
  destruct (suited_TABLE (Z.land (Z.shiftr pattern 0) 0x1fff)) as [o0 v0].
  destruct (suited_TABLE (Z.land (Z.shiftr pattern 13) 0x1fff)) as [o1 v1].
  destruct (suited_TABLE (Z.land (Z.shiftr pattern 26) 0x1fff)) as [o2 v2].
  destruct (suited_TABLE (Z.land (Z.shiftr pattern 39) 0x1fff)) as [o3 v3].
  cbn [fst snd]. f_equal; [f_equal|]; lia.
Qed.

(** Whatever the tables hold, a strength value never exceeds the initial
    accumulator value 9999. *)
Lemma evaluate_le_9999 pattern : evaluate pattern ≤ 9999.
Proof.
  rewrite evaluate_unfold. autounfold with engine; cbn [foldr map]. lia.
Qed.

(** The slice of suit [s] holds bits [13 * s .. 13 * s + 12] of the
    pattern. *)
Lemma suit_slice_testbit pattern s j :
  0 ≤ s → 0 ≤ j →
  Z.testbit (suit_slice pattern s) j
  = if decide (j < 13) then Z.testbit pattern (13 * s + j) else false.
Proof.
  intros Hs Hj. unfold suit_slice.
  rewrite Z.land_spec, Z.shiftr_spec by lia.
  change (2 ^ 13 - 1) with (Z.ones 13).
  destruct (decide (j < 13)).
  - rewrite Z.ones_spec_low by lia. rewrite andb_true_r. f_equal. lia.
  - rewrite Z.ones_spec_high by lia. apply andb_false_r.
Qed.

(** When no flush value of the table exceeds 9999 (the table's entry for a
    suit without a flush), the best flush value is the minimum over the four
    slices. *)
Lemma best_flush_value_slices pattern :
  (∀ k, snd (suited_TABLE k) ≤ 9999) →
  best_flush_value pattern
  = Z.min (snd (suited_TABLE (suit_slice pattern 0)))
      (Z.min (snd (suited_TABLE (suit_slice pattern 1)))
         (Z.min (snd (suited_TABLE (suit_slice pattern 2)))
                (snd (suited_TABLE (suit_slice pattern 3))))).
Proof.
  intros Hle. autounfold with engine. cbn [foldr map].
  pose proof (Hle (Z.land (Z.shiftr pattern (13 * 3)) (2 ^ 13 - 1))). lia.
Qed.

(** C1. For a 52-bit pattern with exactly seven bits set, [evaluate] is the
    minimum of the octet-table value at the sum of the four suit slices'
    octet contributions and of the best flush value, the minimum of the four
    slices' flush values and of the sentinel 9999 (the initial value of the
    accumulator). *)
Theorem evaluate_spec pattern :
  cardset pattern → popcount pattern = 7%nat →
  evaluate pattern
  = Z.min (offsuit_TABLE (octet_of pattern)) (best_flush_value pattern).
Proof. intros _ _. apply evaluate_unfold. Qed.

(** ** The scoring step *)

Lemma length_ranks_of present future : length (ranks_of present future) = length present.
Proof. autounfold with scoring. apply length_map. Qed.

Lemma ranks_of_le present future :
  Forall (λ rank, rank ≤ 9999) (ranks_of present future).
Proof.
  autounfold with scoring. apply Forall_forall. intros rank Hr.
  apply list_elem_of_fmap in Hr as (p & -> & _). apply evaluate_le_9999.
Qed.

Lemma _func_step_points present sums future :
  length sums = length present →
  _func_step present sums future = Ok (vadd sums (points (ranks_of present future))).
Proof.
  intros Hlen. autounfold with scoring. fold (ranks_of present future).
  rewrite _judge_winners_winner_set by apply ranks_of_le.
  rewrite rfoldl_award.
  - rewrite credit_points; [done|]. by rewrite length_ranks_of.
  - done.
  - apply winner_set_NoDup.
  - intros i Hi%winner_set_lt. rewrite length_ranks_of in Hi. lia.
Qed.

Lemma length_scores_from sums present futures :
  length sums = length present →
  length (scores_from sums present futures) = length present.
Proof.
  autounfold with scoring. revert sums.
  induction futures as [|future futures IH]; intros sums Hlen; [done|].
  cbn [foldl]. apply IH. rewrite length_vadd; [done|].
  by rewrite length_points, length_map.
Qed.

Lemma rfoldl_func_step present futures : ∀ sums,
  length sums = length present →
  rfoldl (_func_step present) sums futures = Ok (scores_from sums present futures).
Proof.
  induction futures as [|future futures IH]; intros sums Hlen; [done|].
  cbn [rfoldl]. rewrite _func_step_points by done. cbn.
  rewrite IH; [done|]. rewrite length_vadd; [done|].
  by rewrite length_points, length_ranks_of.
Qed.

(** [_func] never raises: it returns the accumulated points. *)
Lemma _func_scores present futures : _func present futures = Ok (scores present futures).
Proof. apply rfoldl_func_step. by rewrite length_replicate. Qed.

(** C3. On every completed board the winners found by [_judge_winners] are
    exactly the holdings whose evaluated rank is the minimum rank over all
    holdings, and the scoring step adds to the running sums [1 / |winner
    set|] for each holding of that set and nothing for any other. *)
Theorem scoring_step present sums future :
  length sums = length present →
  let ranks := ranks_of present future in
  _judge_winners ranks = winner_set ranks
  ∧ (∀ i, i ∈ _judge_winners ranks ↔ ranks !! i = Some (min_rank ranks))
  ∧ ∃ sums',
      _func_step present sums future = Ok sums'
      ∧ length sums' = length sums
      ∧ ∀ i s, sums !! i = Some s →
          sums' !! i
          = Some (s + (if decide (i ∈ winner_set ranks)
                       then 1 / Qc_of_Z (Z.of_nat (length (winner_set ranks)))
                       else 0))%Qc.
Proof.
  intros Hlen ranks.
  assert (_judge_winners ranks = winner_set ranks) as Hjw
    by apply _judge_winners_winner_set, ranks_of_le.
  split; [done|]. split.
  - intros i. rewrite Hjw. unfold winner_set. rewrite list_elem_of_filter, elem_of_seq.
    split; [by intros [? _]|]. intros Hi. split; [done|].
    apply lookup_lt_Some in Hi. lia.
  - eexists. split; [by apply _func_step_points|]. fold ranks.
    assert (length (points ranks) = length sums) as Hp
      by (rewrite length_points; unfold ranks; by rewrite length_ranks_of).
    split; [by apply length_vadd|].
    intros i s Hs. unfold vadd. rewrite lookup_zip_with, Hs. cbn.
    rewrite lookup_points; [done|].
    apply lookup_lt_Some in Hs. rewrite length_points in Hp. lia.
Qed.

(** ** The equity vector *)

Lemma calculate_equity_scores active_hands mucked_hands board :
  calculate_equity active_hands mucked_hands board
  = ('(present_patterns, future_patterns) ← patterns active_hands mucked_hands board;
     rmap (λ sum, truediv sum (length future_patterns))
          (scores present_patterns future_patterns)).
Proof.
  unfold_engine.
  destruct (patterns active_hands mucked_hands board) as [e|[present futures]]; [done|].
  by rewrite !bind_Ok, _func_scores, bind_Ok.
Qed.

Lemma Qc_sum_scores_from present futures : ∀ sums,
  present ≠ [] → length sums = length present →
  Qc_sum (scores_from sums present futures)
  = (Qc_sum sums + Qc_of_Z (Z.of_nat (length futures)))%Qc.
Proof.
  autounfold with scoring.
  induction futures as [|future futures IH]; intros sums Hne Hlen.
  - cbn [foldl length]. change (Z.of_nat 0) with 0. by rewrite Z2Qc_inj_0, Qcplus_0_r.
  - cbn [foldl length]. fold (ranks_of present future).
    assert (length (points (ranks_of present future)) = length sums) as Hp
      by by rewrite length_points, length_ranks_of.
    rewrite IH; [|done|by rewrite length_vadd].
    rewrite Qc_sum_vadd, Qc_sum_points by (try done; by destruct present).
    rewrite Nat2Z.inj_succ, <- Z.add_1_l, Z2Qc_inj_add, Z2Qc_inj_1. ring.
Qed.

Lemma scores_from_bounds present futures : ∀ hi sums,
  Forall (λ s, (0 ≤ s ≤ Qc_of_Z hi)%Qc) sums →
  Forall (λ s, (0 ≤ s ≤ Qc_of_Z (hi + Z.of_nat (length futures)))%Qc)
         (scores_from sums present futures).
Proof.
  autounfold with scoring.
  induction futures as [|future futures IH]; intros hi sums Hb.
  - cbn [foldl length]. by rewrite Z.add_0_r.
  - cbn [foldl length]. fold (ranks_of present future).
    replace (hi + Z.of_nat (S (length futures)))
      with ((hi + 1) + Z.of_nat (length futures)) by lia.
    apply IH, vadd_bounds; [done|apply points_bounds].
Qed.

(** C4. When the call is well formed (every token known, so that the used
    mask [mask] is built; at least two active holdings; a board of 0, 3, 4
    or 5 tokens) and the enumeration space is not empty,
    [calculate_equity] returns a vector, aligned with the holdings, whose
    components add up to exactly 1 and lie between 0 and 1. *)
Theorem equity_sums_to_one active_hands mucked_hands board mask :
  _make_bit_pattern [Lst active_hands; Lst mucked_hands; Str board] = Ok mask →
  (2 ≤ length active_hands)%nat →
  length (split board) ∈ [0; 3; 4; 5]%nat →
  (5 - length (split board) ≤ 52 - popcount mask)%nat →
  ∃ equity,
    calculate_equity active_hands mucked_hands board = Ok equity
    ∧ length equity = length active_hands
    ∧ Qc_sum equity = 1%Qc
    ∧ Forall (λ e, (0 ≤ e ≤ 1)%Qc) equity.
Proof.
  intros Hmask Hactive Hboard Hspace.
  assert (length (split board) ≤ 5)%nat as Hlen.
  { repeat (apply elem_of_cons in Hboard as [->|Hboard]; [lia|]).
    by apply elem_of_nil in Hboard. }
  set (present := map (present_of board) active_hands).
  set (futures := map union_of_bits
                      (combinations (free_positions mask) (5 - length (split board)))).
  assert (length futures ≠ 0%nat) as Hfut.
  { unfold futures. rewrite length_map, length_combinations.
    rewrite length_free_positions by by eapply mask_cardset.
    pose proof (binomial_pos _ _ Hspace). lia. }
  assert (present ≠ []) as Hpresent
    by (unfold present; destruct active_hands; [cbn in Hactive; lia|done]).
  assert (length present = length active_hands) as Hplen by apply length_map.
  exists (map (λ s, s / Qc_of_Z (Z.of_nat (length futures)))%Qc (scores present futures)).
  split; [|split; [|split]].
  - rewrite calculate_equity_scores, (patterns_Ok _ _ _ _ Hmask Hlen), bind_Ok.
    by apply rmap_truediv.
  - rewrite length_map. unfold_scores.
    rewrite length_scores_from; [done|]. by rewrite length_replicate.
  - rewrite Qc_sum_div. unfold_scores.
    rewrite Qc_sum_scores_from, Qc_sum_zeros, Qcplus_0_l
      by (try done; by rewrite length_replicate).
    unfold Qcdiv. apply Qcmult_inv_r. by apply Qc_of_nat_ne_0.
  - apply Forall_fmap.
    pose proof (scores_from_bounds present futures 0
                  (replicate (length present) 0%Qc)) as Hb.
    rewrite Z.add_0_l in Hb.
    eapply Forall_impl; [apply Hb|].
    + apply Forall_forall. intros s Hs%elem_of_replicate. destruct Hs as [-> _].
      rewrite Z2Qc_inj_0. done.
    + intros s [Hs0 Hs1]. cbn.
      pose proof (Qc_of_nat_pos _ Hfut) as Hpos. unfold Qcdiv. split.
      * apply Qcmult_nonneg_nonneg; [done|]. by apply Qclt_le_weak, Qcinv_pos.
      * apply (Qcmult_le_mono_pos_r _ _ _ Hpos).
        rewrite <- Qcmult_assoc, Qcmult_inv_l, Qcmult_1_r, Qcmult_1_l
          by by apply Qc_of_nat_ne_0.
        done.
Qed.

(** ** A board that is already complete *)

(** C7. With five tokens on the board, the enumeration yields exactly one
    pattern, the empty one, so the only completed board is the board
    itself; [calculate_equity] returns the points of that single showdown:
    [1 / k] for each of the [k] holdings that tie for the minimum rank (1
    for a single winner) and 0 for every other holding. *)
Theorem showdown_on_full_board active_hands mucked_hands board mask :
  _make_bit_pattern [Lst active_hands; Lst mucked_hands; Str board] = Ok mask →
  length (split board) = 5%nat →
  let ranks := map (λ hand, evaluate (present_of board hand)) active_hands in
  let k := length (winner_set ranks) in
  _all_possibilities mask (5 - Z.of_nat (length (split board))) = Ok [0]
  ∧ patterns active_hands mucked_hands board
    = Ok (map (present_of board) active_hands, [0])
  ∧ calculate_equity active_hands mucked_hands board = Ok (points ranks)
  ∧ (∀ i e, points ranks !! i = Some e →
       e = if decide (i ∈ winner_set ranks)
           then (1 / Qc_of_Z (Z.of_nat k))%Qc else 0%Qc)
  ∧ (k = 1%nat → ∀ e, e ∈ points ranks → e = 0%Qc ∨ e = 1%Qc).
Proof.
  intros Hmask Hlen ranks k.
  assert (patterns active_hands mucked_hands board
          = Ok (map (present_of board) active_hands, [0])) as Hpat.
  { rewrite (patterns_Ok _ _ _ mask) by (done || lia).
    by rewrite Hlen, combinations_0. }
  assert (∀ i e, points ranks !! i = Some e →
            e = if decide (i ∈ winner_set ranks)
                then (1 / Qc_of_Z (Z.of_nat k))%Qc else 0%Qc) as Hpts.
  { intros i e He. assert (i < length ranks)%nat as Hi
      by (apply lookup_lt_Some in He; by rewrite length_points in He).
    rewrite lookup_points in He by done. by injection He. }
  split; [|split; [done|split; [|split; [done|]]]].
  - rewrite _all_possibilities_unions, Hlen by lia. by rewrite combinations_0.
  - rewrite calculate_equity_scores, Hpat, bind_Ok, rmap_truediv by done.
    f_equal. unfold_scores. autounfold with scoring. cbn [foldl length].
    rewrite map_map.
    erewrite (map_ext (λ hand, evaluate (Z.lor (present_of board hand) 0)));
      [|intros hand; by rewrite Z.lor_0_r].
    fold ranks. rewrite length_map.
    replace (length active_hands) with (length (points ranks))
      by (rewrite length_points; apply length_map).
    rewrite vadd_zeros_l.
    change (Z.of_nat 1) with 1. rewrite Z2Qc_inj_1.
    erewrite map_ext; [apply map_id|]. intros s. cbn. apply (right_id 1%Qc Qcdiv).
  - intros Hk e [i He]%list_elem_of_lookup. apply Hpts in He. rewrite Hk in He.
    destruct (decide (i ∈ winner_set ranks)); [right|by left].
    rewrite He. change (Z.of_nat 1) with 1. rewrite Z2Qc_inj_1.
    apply (right_id 1%Qc Qcdiv).
Qed.

(** ** The chunked computation *)

Lemma patterns_length active_hands mucked_hands board present futures :
  patterns active_hands mucked_hands board = Ok (present, futures) →
  length present = length active_hands.
Proof.
  unfold patterns.
  destruct (rmap _ active_hands) as [e|present'] eqn:Hp; [done|].
  rewrite bind_Ok.
  destruct (_make_bit_pattern _) as [e|mask]; [done|]. rewrite bind_Ok.
  destruct (_all_possibilities _ _) as [e|futures']; [done|]. rewrite bind_Ok.
  intros [= <- <-]. by eapply rmap_length.
Qed.

Lemma scores_from_app sums present l1 l2 :
  scores_from sums present (l1 ++ l2)
  = scores_from (scores_from sums present l1) present l2.
Proof. autounfold with scoring. apply foldl_app. Qed.

(** Accumulating from [sums] is adding the accumulation from zero. *)
Lemma scores_from_vadd present futures : ∀ sums,
  length sums = length present →
  scores_from sums present futures = vadd sums (scores present futures).
Proof.
  unfold_scores.
  induction futures as [|future futures IH] using rev_ind; intros sums Hlen.
  - autounfold with scoring. cbn [foldl]. unfold vadd.
    clear -Hlen. revert present Hlen.
    induction sums as [|x sums IH]; intros [|p present] Hlen; try done.
    cbn. rewrite Qcplus_0_r. f_equal. apply IH. cbn in Hlen. lia.
  - rewrite !scores_from_app, IH by done.
    autounfold with scoring. cbn [foldl]. by rewrite vadd_assoc.
Qed.

(** [[a[i] + b[i] for i in range(n)]] on two vectors of length [n]. *)
Lemma reduce_step (a b : list Qc) n :
  length a = n → length b = n →
  rmap (λ i, x ← getitem a i; y ← getitem b i; Ok (x + y)%Qc) (seq 0 n)
  = Ok (vadd a b).
Proof.
  intros Ha Hb.
  rewrite (rmap_Ok _ (λ i, (default 0 (a !! i) + default 0 (b !! i))%Qc)).
  - f_equal. apply list_eq. intros i. unfold vadd.
    rewrite lookup_zip_with, list_lookup_fmap.
    destruct (decide (i < n)%nat) as [Hi|Hi].
    + rewrite lookup_seq_lt by done.
      destruct (lookup_lt_is_Some_2 a i) as [x Hx]; [lia|].
      destruct (lookup_lt_is_Some_2 b i) as [y Hy]; [lia|].
      cbn. by rewrite Hx, Hy.
    + rewrite lookup_seq_ge by lia.
      by rewrite (lookup_ge_None_2 a) by lia.
  - intros i [_ Hi]%elem_of_seq.
    destruct (lookup_lt_is_Some_2 a i) as [x Hx]; [lia|].
    destruct (lookup_lt_is_Some_2 b i) as [y Hy]; [lia|].
    by rewrite (getitem_Some _ _ _ Hx), bind_Ok, (getitem_Some _ _ _ Hy), bind_Ok,
      Hx, Hy.
Qed.

(** The [reduce] over the partial accumulators of the chunks. *)
Lemma reduce_chunks present chunks : ∀ sums,
  length sums = length present →
  rfoldl (λ a b, rmap (λ i, x ← getitem a i; y ← getitem b i; Ok (x + y)%Qc)
                      (seq 0 (length present)))
         sums (map (scores present) chunks)
  = Ok (scores_from sums present (concat chunks)).
Proof.
  induction chunks as [|chunk chunks IH]; intros sums Hlen; [done|].
  cbn [map rfoldl concat].
  assert (length (scores present chunk) = length present) as Hc.
  { unfold_scores. apply length_scores_from, length_replicate. }
  rewrite reduce_step, bind_Ok by done.
  rewrite <- scores_from_vadd by done.
  rewrite IH by by apply length_scores_from.
  by rewrite scores_from_app.
Qed.

(** C5. For every worker count of at least one and every input,
    [calculate_equity_in_parallel] returns what [calculate_equity] returns:
    the same vector in exact arithmetic, or the same exception. *)
Theorem parallel_equity cpu_count active_hands mucked_hands board :
  (1 ≤ cpu_count)%nat →
  calculate_equity_in_parallel cpu_count active_hands mucked_hands board
  = calculate_equity active_hands mucked_hands board.
Proof.
  intros Hcpu. rewrite calculate_equity_scores. unfold_engine.
  destruct (patterns active_hands mucked_hands board)
    as [e|[present futures]] eqn:Hpat; [done|].
  apply patterns_length in Hpat as Hlen.
  rewrite !bind_Ok, decide_False, bind_Ok by lia.
  rewrite (rmap_Ok _ (λ '(p, c), scores p c)), bind_Ok, map_map, <- Hlen.
  - rewrite reduce_chunks, bind_Ok by apply length_replicate.
    by rewrite concat_chunk.
  - intros [p c] _. apply _func_scores.
Qed.

(** ** What happens outside the preconditions *)

Lemma rmap_truediv_0 sums :
  rmap (λ sum, truediv sum 0) sums
  = if decide (sums = []) then Ok [] else Raise ZeroDivisionError.
Proof. by destruct sums. Qed.

(** C9, as the code has it. [calculate_equity] and its parallel variant
    check nothing themselves. A token that is not in the table stops the
    call, while the patterns are built and before anything is enumerated,
    with the [KeyError] of the table lookup, which names the token; a board
    of more than five tokens stops it with the [ValueError] of
    [combinations]. Every other call goes through to the division: a board
    of any other size, any number of active holdings and repeated cards are
    accepted, and the only exception left is the division by an empty
    enumeration. *)
Theorem boundary_behaviour active_hands mucked_hands board :
  (¬ Forall known (tokens [Lst active_hands; Lst mucked_hands; Str board]) →
     ∃ card,
       card ∈ tokens [Lst active_hands; Lst mucked_hands; Str board]
       ∧ _POS !! card = None
       ∧ patterns active_hands mucked_hands board = Raise (KeyError card)
       ∧ calculate_equity active_hands mucked_hands board = Raise (KeyError card)
       ∧ ∀ cpu_count,
           calculate_equity_in_parallel cpu_count active_hands mucked_hands board
           = Raise (KeyError card))
  ∧ (Forall known (tokens [Lst active_hands; Lst mucked_hands; Str board]) →
     (5 < length (split board))%nat →
     calculate_equity active_hands mucked_hands board = Raise ValueError
     ∧ ∀ cpu_count,
         calculate_equity_in_parallel cpu_count active_hands mucked_hands board
         = Raise ValueError)
  ∧ (Forall known (tokens [Lst active_hands; Lst mucked_hands; Str board]) →
     (length (split board) ≤ 5)%nat →
     (∃ equity, calculate_equity active_hands mucked_hands board = Ok equity
                ∧ length equity = length active_hands)
     ∨ calculate_equity active_hands mucked_hands board = Raise ZeroDivisionError).
Proof.
  split; [|split].
  - intros Hk. destruct (patterns_KeyError _ _ _ Hk) as (card & Hc & Hnone & Hpat).
    exists card. split; [done|]. split; [done|]. split; [done|].
    split; [|intros cpu_count]; unfold_engine; by rewrite Hpat.
  - intros Hk Hlen.
    assert (patterns active_hands mucked_hands board = Raise ValueError) as Hpat.
    { unfold patterns.
      rewrite (rmap_Ok _ (present_of board)), bind_Ok.
      - rewrite _make_bit_pattern_known, bind_Ok by done.
        unfold _all_possibilities. by rewrite decide_True by lia.
      - intros hand Hh. apply _make_bit_pattern_known.
        rewrite Forall_forall in Hk |- *. intros card Hc. apply Hk.
        by eapply tokens_hand_call. }
    split; [|intros cpu_count]; unfold_engine; by rewrite Hpat.
  - intros Hk Hlen. rewrite calculate_equity_scores.
    rewrite (patterns_Ok _ _ _ _ (_make_bit_pattern_known _ Hk) Hlen), bind_Ok.
    match goal with |- context [truediv _ (length ?fs)] => set (futures := fs) end.
    set (present := map (present_of board) active_hands).
    assert (length (scores present futures) = length active_hands) as Hs.
    { unfold_scores. rewrite length_scores_from by by rewrite length_replicate.
      apply length_map. }
    destruct (decide (length futures = 0%nat)) as [Hz|Hnz].
    + rewrite Hz, rmap_truediv_0. case_decide as He; [|by right].
      left. exists []. split; [done|]. by rewrite <- Hs, He.
    + left. eexists. split; [by apply rmap_truediv|]. by rewrite length_map.
Qed.

End EngineProperties.

Lemma evaluate_spec_witness :
  evaluate sample_suited sample_offsuit 0x4014000c02200
  = Z.min (sample_offsuit (octet_of sample_suited 0x4014000c02200))
          (best_flush_value sample_suited 0x4014000c02200).
Proof.
  apply evaluate_spec.
  - unfold cardset. lia.
  - reflexivity.
Defined.

Lemma scoring_step_witness :
  _judge_winners (ranks_of sample_suited sample_offsuit [0x1003; 0x806] 0x4014000c00000)
  = winner_set (ranks_of sample_suited sample_offsuit [0x1003; 0x806] 0x4014000c00000).
Proof.
  destruct (scoring_step sample_suited sample_offsuit
              [0x1003; 0x806] [0%Qc; 0%Qc] 0x4014000c00000) as [Hw _].
  - reflexivity.
  - exact Hw.
Defined.

Lemma equity_sums_to_one_witness :
  ∃ equity,
    calculate_equity sample_suited sample_offsuit sample_hands [] sample_board = Ok equity
    ∧ Qc_sum equity = 1%Qc.
Proof.
  edestruct (equity_sums_to_one sample_suited sample_offsuit sample_hands [] sample_board)
    as (equity & He & _ & Hsum & _).
  - vm_compute. reflexivity.
  - cbn. lia.
  - apply (bool_decide_unpack _). by vm_compute.
  - vm_compute. lia.
  - exists equity. split; [exact He | exact Hsum].
Defined.

Lemma parallel_equity_witness :
  calculate_equity_in_parallel sample_suited sample_offsuit 3 sample_hands [] sample_board
  = calculate_equity sample_suited sample_offsuit sample_hands [] sample_board.
Proof. apply parallel_equity. lia. Defined.

Lemma showdown_on_full_board_witness :
  calculate_equity sample_suited sample_offsuit sample_hands [] sample_board
  = Ok (points (map (λ hand, evaluate sample_suited sample_offsuit
                                      (present_of sample_board hand)) sample_hands)).
Proof.
  edestruct (showdown_on_full_board sample_suited sample_offsuit
               sample_hands [] sample_board) as (_ & _ & He & _).
  - vm_compute. reflexivity.
  - by vm_compute.
  - exact He.
Defined.

(** A call with a single active holding is outside the preconditions, and
    it returns a result. *)
Lemma lone_hand_equity :
  ∃ equity,
    calculate_equity sample_suited sample_offsuit lone_hand [] sample_board = Ok equity.
Proof. eexists. vm_compute. reflexivity. Qed.

(** The claim C9 fails as stated: not every boundary-invalid call fails. *)
Lemma validation_counterexample :
  ¬ ∀ suited offsuit active_hands mucked_hands board,
      boundary_invalid active_hands mucked_hands board →
      fails (calculate_equity suited offsuit active_hands mucked_hands board).
Proof.
  intros Hall.
  destruct (Hall sample_suited sample_offsuit lone_hand [] sample_board) as [e He].
  - right. right. left. cbn. lia.
  - destruct lone_hand_equity as [equity Heq].
    pose proof (eq_trans (eq_sym Heq) He) as Habs. clear -Habs.
    unfold Ok, Raise in Habs. discriminate Habs.
Qed.

(** * Further properties *)

(** ** Splitting and joining *)

Lemma split_loop_tokens s : ∀ word,
  Forall (λ c, isspace c = false) word → Forall is_token (split_loop word s).
Proof.
  assert (Hword : ∀ word, word ≠ [] → Forall (λ c, isspace c = false) word →
                          is_token (reverse word)).
  { intros word Hne Hw. split; [|by apply Forall_reverse].
    intros Hr. apply Hne. by rewrite <- (reverse_involutive word), Hr. }
  induction s as [|c s IH]; intros word Hw.
  - cbn. destruct word as [|c word]; [constructor|].
    apply Forall_singleton. by apply Hword.
  - cbn [split_loop]. destruct (isspace c) eqn:Hc.
    + destruct word as [|c' word]; [by apply IH|].
      constructor; [by apply Hword|by apply IH].
    + apply IH. by constructor.
Qed.

Lemma split_loop_blank s : blank s → split_loop [] s = [].
Proof.
  induction 1 as [|c s Hc _ IH]; [done|]. cbn [split_loop]. by rewrite Hc.
Qed.

Lemma split_loop_token t : ∀ word,
  Forall (λ c, isspace c = false) t →
  split_loop word t
  = match reverse t ++ word with [] => [] | w => [reverse w] end.
Proof.
  induction t as [|c t IH]; intros word Ht.
  - cbn. by destruct word.
  - apply Forall_cons in Ht as [Hc Ht]. cbn [split_loop]. rewrite Hc, IH by done.
    by rewrite reverse_cons, <- app_assoc.
Qed.

Lemma split_token t : is_token t → split t = [t].
Proof.
  intros [Hne Ht]. unfold split. rewrite split_loop_token, app_nil_r by done.
  destruct (reverse t) as [|c r] eqn:Hr.
  - destruct Hne. by rewrite <- (reverse_involutive t), Hr.
  - by rewrite <- Hr, reverse_involutive.
Qed.

(** [split] returns tokens only: every element is non-empty and holds no
    whitespace character; a string of whitespace only has no token. *)
Lemma split_tokens s : Forall is_token (split s).
Proof. apply split_loop_tokens. constructor. Qed.

Lemma split_blank s : blank s → split s = [].
Proof. apply split_loop_blank. Qed.

(** Joining tokens with a space and splitting the result gives the tokens
    back. *)
Lemma split_join_tokens l :
  Forall is_token l → split (join (lit " ") l) = l.
Proof.
  intros Hl. rewrite split_join.
  induction Hl as [|t l Ht _ IH]; [done|].
  cbn [map concat]. by rewrite split_token, IH.
Qed.

Lemma tokens_cons a args : tokens (a :: args) = arg_tokens a ++ tokens args.
Proof. done. Qed.

Lemma tokens_Str_list l : tokens (map Str l) = concat (map split l).
Proof. induction l as [|s l IH]; [done|]. cbn [map]. by rewrite tokens_cons, IH. Qed.

(** X1. A list argument of [_make_bit_pattern] stands for its elements
    given as separate string arguments: the result, pattern or exception, is
    the same. *)
Theorem make_bit_pattern_list_as_args l args :
  _make_bit_pattern (Lst l :: args) = _make_bit_pattern (map Str l ++ args).
Proof.
  rewrite !_make_bit_pattern_tokens. f_equal.
  unfold tokens at 2. rewrite map_app, concat_app. fold (tokens (map Str l)) (tokens args).
  by rewrite tokens_Str_list.
Qed.

(** X2. Arguments that hold whitespace only (empty strings, empty lists)
    name no card: their pattern is 0, and they add nothing to the pattern of
    the other arguments. *)
Theorem make_bit_pattern_blank blanks args :
  Forall blank_arg blanks →
  _make_bit_pattern blanks = Ok 0
  ∧ _make_bit_pattern (blanks ++ args) = _make_bit_pattern args
  ∧ _make_bit_pattern (args ++ blanks) = _make_bit_pattern args.
Proof.
  intros Hb.
  assert (tokens blanks = []) as Hnil.
  { induction Hb as [|a blanks Ha _ IH]; [done|].
    change (tokens (a :: blanks)) with (arg_tokens a ++ tokens blanks).
    rewrite IH, app_nil_r.
    destruct a as [s|l]; cbn in *; [by apply split_blank|].
    induction Ha as [|s l Hs _ IHl]; [done|]. cbn [map concat].
    by rewrite split_blank, IHl. }
  assert (∀ a b, tokens (a ++ b) = tokens a ++ tokens b) as Happ
    by (intros a b; unfold tokens; by rewrite map_app, concat_app).
  by rewrite !_make_bit_pattern_tokens, !Happ, Hnil, app_nil_r.
Qed.

Lemma make_bit_pattern_blank_witness :
  _make_bit_pattern [Str []; Lst [lit "  "; []]] = Ok 0.
Proof.
  destruct (make_bit_pattern_blank [Str []; Lst [lit "  "; []]] []) as [H0 _].
  - repeat constructor.
  - exact H0.
Defined.

(** ** Filling the token table *)

(** The inner loop of [_define_bit_positions], over any list of ranks. *)
Lemma define_ranks_lookup (f : nat → Z) suit (rs : list str) : ∀ codes : gmap str Z,
  NoDup rs →
  let codes' := foldl (λ (codes : gmap str Z) '(j, rank), <[rank ++ suit := f j]> codes)
                      codes (enumerate rs) in
  (∀ j rank, rs !! j = Some rank → codes' !! (rank ++ suit) = Some (f j))
  ∧ (∀ key, (∀ rank, rank ∈ rs → key ≠ rank ++ suit) → codes' !! key = codes !! key).
Proof.
  induction rs as [|r rs IH] using rev_ind; intros codes Hnd codes'.
  - split; [by intros j rank Hj|done].
  - apply NoDup_app in Hnd as (Hnd & Hr & _).
    destruct (IH codes Hnd) as [IH1 IH2].
    unfold codes'. rewrite enumerate_snoc, foldl_app. cbn [foldl]. split.
    + intros j rank Hj. destruct (decide (j = length rs)) as [->|Hne].
      * rewrite lookup_app_r, Nat.sub_diag in Hj by lia. injection Hj as <-.
        apply lookup_insert_eq.
      * assert (rs !! j = Some rank) as Hj'.
        { rewrite lookup_app_l in Hj; [done|].
          apply lookup_lt_Some in Hj. rewrite length_app in Hj. cbn in Hj. lia. }
        rewrite lookup_insert_ne; [by apply IH1|].
        intros Heq%app_inv_tail. subst r.
        apply (Hr rank); [by eapply list_elem_of_lookup_2|by left].
    + intros key Hkey. rewrite lookup_insert_ne.
      * apply IH2. intros rank Hrank. apply Hkey, elem_of_app. by left.
      * intros <-. eapply Hkey; [|done]. apply elem_of_app. right. by left.
Qed.

Lemma ranks_facts : NoDup ranks ∧ Forall (λ rank : str, length rank = 1%nat) ranks.
Proof. split; [|by repeat constructor]. apply (bool_decide_unpack _). by vm_compute. Qed.

(** X3. [_define_bit_positions codes suits], for pairwise distinct suits,
    maps the token of the [j]-th rank and the [i]-th suit to [i * 13 + j],
    and leaves every key that is not such a token as it is in [codes]. *)
Theorem define_bit_positions_lookup (codes : gmap str Z) (suits : list str) :
  NoDup suits →
  (∀ i j suit rank, suits !! i = Some suit → ranks !! j = Some rank →
     _define_bit_positions codes suits !! (rank ++ suit)
     = Some (Z.of_nat i * 13 + Z.of_nat j))
  ∧ (∀ key, (∀ rank suit, rank ∈ ranks → suit ∈ suits → key ≠ rank ++ suit) →
       _define_bit_positions codes suits !! key = codes !! key).
Proof.
  destruct ranks_facts as [Hranks Hlen]. unfold _define_bit_positions.
  induction suits as [|s suits IH] using rev_ind; intros Hnd.
  - split; [by intros i j suit rank Hi|done].
  - apply NoDup_app in Hnd as (Hnd & Hs & _). destruct (IH Hnd) as [IH1 IH2].
    rewrite enumerate_snoc, foldl_app. cbn [foldl].
    match goal with
    | |- context [foldl _ ?c (enumerate ranks)] => set (before := c) in *
    end.
    destruct (define_ranks_lookup (λ j, Z.of_nat (length suits) * 13 + Z.of_nat j)
                s ranks before Hranks) as [Hin Hout].
    split.
    + intros i j suit rank Hi Hj. destruct (decide (i = length suits)) as [->|Hne].
      * rewrite lookup_app_r, Nat.sub_diag in Hi by lia. injection Hi as <-.
        by apply Hin.
      * assert (suits !! i = Some suit) as Hi'.
        { rewrite lookup_app_l in Hi; [done|].
          apply lookup_lt_Some in Hi. rewrite length_app in Hi. cbn in Hi. lia. }
        rewrite Hout; [by eapply IH1|].
        intros rank' Hrank' Heq.
        rewrite Forall_forall in Hlen.
        assert (length rank = 1%nat) by by eapply Hlen, list_elem_of_lookup_2.
        assert (length rank' = 1%nat) by by apply Hlen.
        destruct rank as [|c [|??]]; try done. destruct rank' as [|c' [|??]]; try done.
        injection Heq as _ ->.
        apply (Hs s); [by eapply list_elem_of_lookup_2|by left].
    + intros key Hkey. rewrite Hout.
      * apply IH2. intros rank suit Hrank Hsuit. apply Hkey; [done|].
        apply elem_of_app. by left.
      * intros rank Hrank. apply Hkey; [done|]. apply elem_of_app. right. by left.
Qed.

Lemma define_bit_positions_lookup_witness :
  _define_bit_positions ∅ suits_b !! (lit "K" ++ [0x2666%N]) = Some (2 * 13 + 11).
Proof.
  destruct (define_bit_positions_lookup ∅ suits_b) as [Hin _].
  - apply (bool_decide_unpack _). by vm_compute.
  - apply (Hin 2%nat 11%nat); reflexivity.
Defined.

(** ** Building bit patterns *)

Lemma tokens_app args1 args2 : tokens (args1 ++ args2) = tokens args1 ++ tokens args2.
Proof. unfold tokens. by rewrite map_app, concat_app. Qed.

(** X4. [_make_bit_pattern] stops at the first token, in the order of the
    arguments, that is not a key of the table, and raises the [KeyError] of
    that token. *)
Theorem make_bit_pattern_KeyError args before card after :
  tokens args = before ++ card :: after →
  Forall known before → _POS !! card = None →
  _make_bit_pattern args = Raise (KeyError card).
Proof.
  intros Htok Hbefore Hcard.
  rewrite _make_bit_pattern_tokens, Htok, rfoldl_app, add_cards_known, bind_Ok by done.
  cbn [rfoldl]. by rewrite (add_card_None _ _ Hcard).
Qed.

Lemma make_bit_pattern_KeyError_witness :
  _make_bit_pattern [Lst [token suits_a 0 12 ++ lit " " ++ lit "Kx"]; Str (lit "2y")]
  = Raise (KeyError (lit "Kx")).
Proof.
  apply (make_bit_pattern_KeyError _ [token suits_a 0 12] (lit "Kx") [lit "2y"]).
  - by vm_compute.
  - apply (bool_decide_unpack _). by vm_compute.
  - by vm_compute.
Defined.

(** Adding cards to a pattern is adding them to the empty pattern and
    taking the union. *)
Lemma add_cards_lor cards : ∀ pattern,
  rfoldl add_card pattern cards
  = (cards_pattern ← rfoldl add_card 0 cards; Ok (Z.lor pattern cards_pattern)).
Proof.
  induction cards as [|card cards IH]; intros pattern.
  - cbn [rfoldl]. by rewrite bind_Ok, Z.lor_0_r.
  - cbn [rfoldl]. destruct (_POS !! card) as [pos|] eqn:Hcard.
    + rewrite !(add_card_Some _ _ _ Hcard), !bind_Ok.
      rewrite (IH (Z.lor pattern _)), (IH (Z.lor 0 _)).
      destruct (rfoldl add_card 0 cards) as [e|q]; [done|].
      rewrite !bind_Ok. f_equal. by rewrite Z.lor_0_l, Z.lor_assoc.
    + by rewrite !(add_card_None _ _ Hcard).
Qed.

(** X5. The pattern of a concatenation of argument lists is the bitwise OR
    of the patterns of the two lists, and the first exception of the two, in
    this order, when one of them raises. *)
Theorem make_bit_pattern_app args1 args2 :
  _make_bit_pattern (args1 ++ args2)
  = (pattern1 ← _make_bit_pattern args1;
     pattern2 ← _make_bit_pattern args2;
     Ok (Z.lor pattern1 pattern2)).
Proof.
  rewrite !_make_bit_pattern_tokens, tokens_app, rfoldl_app.
  destruct (rfoldl add_card 0 (tokens args1)) as [e|pattern1]; [done|].
  rewrite !bind_Ok. apply add_cards_lor.
Qed.

(** ** The enumeration at its edges *)

Lemma binomial_gt n : ∀ k, (n < k)%nat → binomial n k = 0%nat.
Proof.
  induction n as [|n IH]; intros [|k] Hk; try lia; [done|].
  cbn [binomial]. by rewrite !IH by lia.
Qed.

Lemma combinations_short {A} (l : list A) r :
  (length l < r)%nat → combinations l r = [].
Proof.
  intros Hr. apply length_zero_iff_nil.
  by rewrite length_combinations, binomial_gt.
Qed.

(** X6. [_all_possibilities] raises [ValueError] for a negative [r],
    returns the single empty pattern for [r = 0], and returns no pattern at
    all when [r] exceeds the number of cards the mask leaves free. *)
Theorem all_possibilities_edges mask r :
  (r < 0 → _all_possibilities mask r = Raise ValueError)
  ∧ (r = 0 → _all_possibilities mask r = Ok [0])
  ∧ (cardset mask → Z.of_nat (52 - popcount mask) < r →
     _all_possibilities mask r = Ok []).
Proof.
  split; [|split].
  - intros Hr. unfold _all_possibilities. by rewrite decide_True.
  - intros ->. rewrite _all_possibilities_unions by done. by rewrite combinations_0.
  - intros Hm Hr. rewrite _all_possibilities_unions by lia.
    rewrite combinations_short; [done|]. rewrite length_free_positions by done. lia.
Qed.

(** X7. For [r ≥ 0], the patterns that [_all_possibilities] returns are
    exactly the CardSets with [r] bits set that share no bit with the mask:
    none is left out and nothing else is produced. *)
Theorem all_possibilities_exhaustive mask r :
  0 ≤ r →
  ∃ futures,
    _all_possibilities mask r = Ok futures
    ∧ ∀ x, x ∈ futures ↔ cardset x ∧ popcount x = Z.to_nat r ∧ Z.land x mask = 0.
Proof.
  intros Hr. eexists. split; [by apply _all_possibilities_unions|]. intros x. split.
  - intros (c & -> & Hc)%list_elem_of_fmap.
    apply combinations_sublist in Hc as [Hs <-]. by apply future_pattern_spec.
  - intros (Hx & Hpop & Hdisj).
    destruct (_all_possibilities_complete mask x Hx Hdisj) as (futures & Hf & Hin).
    rewrite Hpop, Z2Nat.id, _all_possibilities_unions in Hf by done.
    by injection Hf as <-.
Qed.

Lemma all_possibilities_exhaustive_witness :
  ∃ futures, _all_possibilities (2 ^ 52 - 4) 1 = Ok futures ∧ 2 ∈ futures.
Proof.
  destruct (all_possibilities_exhaustive (2 ^ 52 - 4) 1) as (futures & Hf & Hin);
    [lia|].
  exists futures. split; [exact Hf|]. apply Hin.
  split; [unfold cardset; lia|]. split; by vm_compute.
Defined.

(** ** Winners, on any list of integers *)

Lemma best_of_cases ranks : best_of ranks = 9999 ∨ best_of ranks ∈ ranks.
Proof.
  induction ranks as [|rank ranks IH] using rev_ind; [by left|].
  rewrite best_of_snoc.
  destruct (Z.min_spec (best_of ranks) rank) as [[_ ->]|[_ ->]].
  - destruct IH as [IH|IH]; [by left|]. right. apply elem_of_app. by left.
  - right. apply elem_of_app. right. by left.
Qed.

Lemma _judge_winners_elem ranks i :
  i ∈ _judge_winners ranks
  ↔ ∃ rank, ranks !! i = Some rank ∧ rank ≤ 9999 ∧ Forall (λ r, rank ≤ r) ranks.
Proof.
  unfold _judge_winners. rewrite _judge_winners_loop. cbn [snd].
  rewrite list_elem_of_filter, elem_of_seq.
  destruct (best_of_le ranks) as [Hle Hall]. split.
  - intros [Hi _]. by exists (best_of ranks).
  - intros (rank & Hi & Hr & Hmin). split; [|apply lookup_lt_Some in Hi; lia].
    rewrite Hi. f_equal.
    assert (best_of ranks ≤ rank).
    { rewrite Forall_forall in Hall. by eapply Hall, list_elem_of_lookup_2. }
    destruct (best_of_cases ranks) as [Hb|Hb]; [lia|].
    rewrite Forall_forall in Hmin. apply Hmin in Hb. lia.
Qed.

(** X8. On any list of integers, [_judge_winners] returns, each once, the
    indices of the ranks that are at most 9999 and at most every rank of the
    list; so it returns no winner at all exactly when every rank is above
    9999 (an empty list included). *)
Theorem judge_winners_sentinel ranks :
  (∀ i, i ∈ _judge_winners ranks
        ↔ ∃ rank, ranks !! i = Some rank ∧ rank ≤ 9999 ∧ Forall (λ r, rank ≤ r) ranks)
  ∧ NoDup (_judge_winners ranks)
  ∧ (_judge_winners ranks = [] ↔ Forall (λ rank, 9999 < rank) ranks).
Proof.
  split; [apply _judge_winners_elem|]. split.
  { unfold _judge_winners. rewrite _judge_winners_loop. apply NoDup_filter, NoDup_seq. }
  split.
  - intros Hnil. apply Forall_forall. intros rank Hrank.
    destruct (decide (9999 < rank)) as [|Hle]; [done|]. exfalso.
    destruct (best_of_le ranks) as [Hb Hall].
    assert (best_of ranks ∈ ranks) as Hin.
    { destruct (best_of_cases ranks) as [Heq|]; [|done].
      rewrite Forall_forall in Hall. apply Hall in Hrank as Hr.
      by replace (best_of ranks) with rank by lia. }
    apply list_elem_of_lookup in Hin as [i Hi].
    assert (i ∈ _judge_winners ranks) as Hw
      by (apply _judge_winners_elem; by exists (best_of ranks)).
    rewrite Hnil in Hw. by apply elem_of_nil in Hw.
  - intros Hall. apply elem_of_nil_inv. intros i Hi.
    apply _judge_winners_elem in Hi as (rank & Hi & Hr & _).
    rewrite Forall_forall in Hall. apply list_elem_of_lookup_2, Hall in Hi. lia.
Qed.

(** ** Chunks at the edges *)

(** X9. [_chunk] yields nothing for a worker count of zero, and [d] empty
    slices for an empty list; when [d] divides the length every slice has
    [n / d] elements, and when the list is shorter than [d] no slice has more
    than one. *)
Theorem chunk_edges {A} (l : list A) (d : nat) :
  _chunk l 0 = []
  ∧ _chunk (@nil A) d = replicate d []
  ∧ ((1 ≤ d)%nat → (length l mod d = 0)%nat →
     Forall (λ c, length c = (length l / d)%nat) (_chunk l d))
  ∧ ((length l < d)%nat → Forall (λ c, (length c ≤ 1)%nat) (_chunk l d)).
Proof.
  split; [done|]. split; [|split].
  - rewrite _chunk_map.
    assert (∀ (f : nat → list A) k i,
              (∀ j, f j = []) → map f (seq i k) = replicate k []) as Hnil.
    { intros f k. induction k as [|k IH]; intros i Hf; [done|].
      cbn [seq map replicate]. by rewrite Hf, IH. }
    apply Hnil. intros j. unfold slice. by rewrite take_nil, drop_nil.
  - intros Hd Hmod. rewrite _chunk_map. apply Forall_forall.
    intros c (i & -> & [_ Hi]%elem_of_seq)%list_elem_of_fmap.
    rewrite length_slice by (apply boundary_le; lia).
    apply Nat.Div0.div_exact in Hmod.
    set (q := (length l / d)%nat) in *. rewrite Hmod.
    replace (i * (d * q))%nat with (i * q * d)%nat by lia.
    replace ((i + 1) * (d * q))%nat with ((i + 1) * q * d)%nat by lia.
    rewrite !Nat.div_mul by lia. lia.
  - intros Hlt. rewrite _chunk_map. apply Forall_forall.
    intros c (i & -> & [_ Hi]%elem_of_seq)%list_elem_of_fmap.
    rewrite length_slice by (apply boundary_le; lia).
    pose proof (boundary_gap (length l) d i ltac:(lia)) as Hgap.
    rewrite (Nat.div_small (length l) d) in Hgap by done. lia.
Qed.

(** ** The patterns handed to the evaluator *)

Lemma popcount_union_NoDup poss :
  NoDup poss → Forall (λ pos, 0 ≤ pos < 52) poss →
  popcount (union_of_bits poss) = length poss.
Proof.
  intros Hnd Hrange. rewrite popcount_bits by by apply union_of_bits_cardset.
  apply Permutation_length, NoDup_Permutation; [|done|].
  - apply NoDup_filter, NoDup_seqZ.
  - intros i. unfold bits_on. rewrite list_elem_of_filter, elem_of_seqZ.
    rewrite union_of_bits_testbit by (eapply Forall_impl; [exact Hrange|]; cbn; lia).
    split; [by intros [? _]|]. intros Hi. split; [done|].
    rewrite Forall_forall in Hrange. apply Hrange in Hi. lia.
Qed.

Lemma length_filter_disjoint {A} (P Q : A → Prop)
    `{!∀ x, Decision (P x), !∀ x, Decision (Q x)} (l : list A) :
  (∀ x, x ∈ l → P x → Q x → False) →
  length (filter (λ x, P x ∨ Q x) l)
  = (length (filter P l) + length (filter Q l))%nat.
Proof.
  induction l as [|x l IH]; intros Hdisj; [done|].
  assert (IH' := IH (λ y Hy, Hdisj y (list_elem_of_further _ _ _ Hy))).
  destruct (decide (P x)) as [HP|HP]; destruct (decide (Q x)) as [HQ|HQ].
  - destruct (Hdisj x); [by left|done..].
  - rewrite (filter_cons_True (λ x, P x ∨ Q x)), (filter_cons_True P),
      (filter_cons_False Q) by tauto. cbn [length]. lia.
  - rewrite (filter_cons_True (λ x, P x ∨ Q x)), (filter_cons_False P),
      (filter_cons_True Q) by tauto. cbn [length]. lia.
  - rewrite (filter_cons_False (λ x, P x ∨ Q x)), (filter_cons_False P),
      (filter_cons_False Q) by tauto. done.
Qed.

(** Two CardSets without a common bit: the union has the bits of both. *)
Lemma popcount_lor_disjoint a b :
  cardset a → cardset b → Z.land a b = 0 →
  popcount (Z.lor a b) = (popcount a + popcount b)%nat.
Proof.
  intros Ha Hb Hdisj.
  rewrite !popcount_bits by (done || by apply lor_cardset). unfold bits_on.
  rewrite <- length_filter_disjoint.
  - f_equal. apply list_filter_iff. intros i. by rewrite Z.lor_spec, orb_true_iff.
  - intros i _ Hia Hib. apply (f_equal (λ z, Z.testbit z i)) in Hdisj.
    by rewrite Z.land_spec, Z.bits_0, Hia, Hib in Hdisj.
Qed.

Lemma length_positions_known cards :
  Forall known cards → length (positions cards) = length cards.
Proof.
  induction 1 as [|card cards [pos Hpos] _ IH]; [done|].
  rewrite (positions_cons_Some _ _ _ Hpos). cbn. by rewrite IH.
Qed.

(** What [patterns] returned, when it returned. *)
Lemma patterns_inv active_hands mucked_hands board present futures :
  patterns active_hands mucked_hands board = Ok (present, futures) →
  ∃ mask,
    _make_bit_pattern [Lst active_hands; Lst mucked_hands; Str board] = Ok mask
    ∧ (length (split board) ≤ 5)%nat
    ∧ present = map (present_of board) active_hands
    ∧ futures = map union_of_bits
                    (combinations (free_positions mask) (5 - length (split board))).
Proof.
  intros Hpat. pose proof Hpat as Hpat'. unfold patterns in Hpat'.
  destruct (rmap _ active_hands) as [e|present']; [done|]. rewrite bind_Ok in Hpat'.
  destruct (_make_bit_pattern _) as [e|mask] eqn:Hmask; [done|].
  rewrite bind_Ok in Hpat'.
  assert (length (split board) ≤ 5)%nat as Hlen.
  { destruct (decide (length (split board) ≤ 5)%nat) as [|Hgt]; [done|]. exfalso.
    unfold _all_possibilities in Hpat'. by rewrite decide_True in Hpat' by lia. }
  exists mask. split; [done|]. split; [done|].
  rewrite (patterns_Ok _ _ _ _ Hmask Hlen) in Hpat. by injection Hpat as <- <-.
Qed.

Lemma present_disjoint active_hands mucked_hands board mask hand future :
  _make_bit_pattern [Lst active_hands; Lst mucked_hands; Str board] = Ok mask →
  hand ∈ active_hands → Z.land future mask = 0 →
  Z.land (present_of board hand) future = 0.
Proof.
  intros Hmask Hhand Hdisj. apply _make_bit_pattern_Ok in Hmask as [_ ->].
  apply Z.bits_inj'. intros j _. rewrite Z.land_spec, Z.bits_0.
  destruct (Z.testbit (present_of board hand) j) eqn:Hp; [|done]. cbn.
  apply union_positions_testbit in Hp as (card & Hcard & Hpos).
  apply (f_equal (λ z, Z.testbit z j)) in Hdisj.
  rewrite Z.land_spec, Z.bits_0 in Hdisj.
  assert (Z.testbit (union_of_bits (positions
            (tokens [Lst active_hands; Lst mucked_hands; Str board]))) j = true) as Hm.
  { apply union_positions_testbit. exists card. split; [|done].
    by eapply tokens_hand_call. }
  by rewrite Hm, andb_true_r in Hdisj.
Qed.

(** X10. When every active hand holds two tokens and the cards of each hand
    and of the board are distinct, every pattern that [_func] evaluates, a
    present pattern united with a future pattern, is a CardSet with exactly
    seven bits set: the precondition of [evaluate] holds on every call. *)
Theorem evaluated_patterns_seven_cards active_hands mucked_hands board present futures :
  patterns active_hands mucked_hands board = Ok (present, futures) →
  Forall (λ hand, length (split hand) = 2%nat
                  ∧ NoDup (positions (tokens [Str hand; Str board]))) active_hands →
  ∀ p f, p ∈ present → f ∈ futures →
         cardset (Z.lor p f) ∧ popcount (Z.lor p f) = 7%nat.
Proof.
  intros (mask & Hmask & Hlen & -> & ->)%patterns_inv Hhands p f Hp Hf.
  apply list_elem_of_fmap in Hp as (hand & -> & Hhand).
  apply list_elem_of_fmap in Hf as (c & -> & Hc).
  apply combinations_sublist in Hc as [Hs Hc].
  destruct (future_pattern_spec mask c Hs) as (Hfc & Hfpop & Hfdisj).
  rewrite Forall_forall in Hhands. destruct (Hhands hand Hhand) as [Htwo Hnd].
  assert (Forall known (tokens [Str hand; Str board])) as Hk.
  { apply _make_bit_pattern_Ok in Hmask as [Hk _].
    rewrite Forall_forall in Hk |- *. intros card Hcard. apply Hk.
    by eapply tokens_hand_call. }
  assert (cardset (present_of board hand)) as Hpc
    by apply union_of_bits_cardset, positions_range.
  split; [by apply lor_cardset|].
  rewrite popcount_lor_disjoint; [|done|done|by eapply present_disjoint].
  unfold present_of. rewrite popcount_union_NoDup by (done || apply positions_range).
  rewrite length_positions_known, tokens_hand, length_app, Htwo, Hfpop, Hc by done. lia.
Qed.

Lemma evaluated_patterns_seven_cards_witness :
  popcount (Z.lor (present_of sample_board (token suits_a 0 12 ++ lit " " ++ token suits_a 3 12))
                  0) = 7%nat.
Proof.
  eapply (evaluated_patterns_seven_cards sample_hands [] sample_board).
  - by vm_compute.
  - apply (bool_decide_unpack _). by vm_compute.
  - by left.
  - by left.
Defined.

(** ** Sums that do not depend on the order *)

Lemma foldr_add_Permutation l l' : l ≡ₚ l' → foldr Z.add 0 l = foldr Z.add 0 l'.
Proof. induction 1; cbn [foldr]; lia. Qed.

Lemma foldr_min_Permutation a l l' : l ≡ₚ l' → foldr Z.min a l = foldr Z.min a l'.
Proof. induction 1; cbn [foldr]; lia. Qed.

Lemma vadd_swap (s a b : list Qc) : vadd (vadd s a) b = vadd (vadd s b) a.
Proof.
  unfold vadd. revert a b. induction s as [|x s IH]; intros [|y a] [|z b]; try done.
  cbn. rewrite IH. f_equal. ring.
Qed.

Lemma min_rank_le ranks : Forall (λ rank, min_rank ranks ≤ rank) ranks.
Proof.
  destruct ranks as [|rank ranks]; [constructor|]. rewrite min_rank_cons.
  assert (foldr Z.min rank ranks ≤ rank ∧ Forall (λ r, foldr Z.min rank ranks ≤ r) ranks)
    as [H1 H2]; [|by constructor].
  induction ranks as [|r ranks [IH1 IH2]]; cbn [foldr]; [by split|].
  split; [lia|]. constructor; [lia|]. eapply Forall_impl; [exact IH2|]. cbn. lia.
Qed.

(** The points of a holding depend on its own rank only, given the board's
    ranks. *)
Lemma points_lookup_eq ranks i j :
  ranks !! i = ranks !! j → points ranks !! i = points ranks !! j.
Proof.
  intros Hij. destruct (ranks !! i) as [rank|] eqn:Hi.
  - symmetry in Hij. rewrite !lookup_points by by eapply lookup_lt_Some. f_equal.
    assert (i ∈ winner_set ranks ↔ j ∈ winner_set ranks) as Hw.
    { unfold winner_set. rewrite !list_elem_of_filter, !elem_of_seq, Hi, Hij.
      apply lookup_lt_Some in Hi, Hij. intuition lia. }
    destruct (decide (i ∈ winner_set ranks)).
    + by rewrite decide_True by by apply Hw.
    + rewrite decide_False; [done|]. by rewrite <- Hw.
  - symmetry in Hij. apply lookup_ge_None in Hi, Hij.
    by rewrite !(proj2 (lookup_ge_None _ _)) by by rewrite length_points.
Qed.

Lemma points_lookup_loser ranks i k rank_i rank_k :
  ranks !! i = Some rank_i → ranks !! k = Some rank_k → rank_k < rank_i →
  points ranks !! i = Some 0%Qc.
Proof.
  intros Hi Hk Hlt. rewrite lookup_points by by eapply lookup_lt_Some.
  rewrite decide_False; [done|].
  unfold winner_set. rewrite list_elem_of_filter, Hi. intros [[= ->] _].
  pose proof (min_rank_le ranks) as Hmin. rewrite Forall_forall in Hmin.
  apply list_elem_of_lookup_2, Hmin in Hk. lia.
Qed.

Section EngineExtras.

Context (suited_TABLE : Z → Z * Z) (offsuit_TABLE : Z → Z).

Local Abbreviation evaluate := (evaluate suited_TABLE offsuit_TABLE).
Local Abbreviation ranks_of := (ranks_of suited_TABLE offsuit_TABLE).
Local Abbreviation _func := (_func suited_TABLE offsuit_TABLE).
Local Abbreviation scores_from := (scores_from suited_TABLE offsuit_TABLE).
Local Abbreviation scores := (scores suited_TABLE offsuit_TABLE).
Local Abbreviation calculate_equity := (calculate_equity suited_TABLE offsuit_TABLE).

(** ** The evaluator, beyond seven-card patterns *)

Lemma suit_slice_low pattern s :
  0 ≤ s < 4 → suit_slice (pattern mod 2 ^ 52) s = suit_slice pattern s.
Proof.
  intros Hs. apply Z.bits_inj'. intros j Hj.
  rewrite !suit_slice_testbit by lia. case_decide; [|done].
  rewrite <- Z.land_ones, Z.land_spec, Z.ones_spec_low by lia. apply andb_true_r.
Qed.

(** X11. [evaluate] reads the low 52 bits of its argument only: any integer
    gives the value of its residue modulo 2^52. *)
Theorem evaluate_low_bits pattern :
  evaluate pattern = evaluate (pattern mod 2 ^ 52).
Proof.
  rewrite !evaluate_unfold. autounfold with engine. cbn [map].
  fold (suit_slice (pattern mod 2 ^ 52) 0) (suit_slice (pattern mod 2 ^ 52) 1)
       (suit_slice (pattern mod 2 ^ 52) 2) (suit_slice (pattern mod 2 ^ 52) 3).
  by rewrite !suit_slice_low by lia.
Qed.

(** X12. [evaluate] does not depend on which suit holds which slice: two
    patterns whose four 13-bit slices are the same up to their order have the
    same value. *)
Theorem evaluate_suit_symmetry p q :
  map (suit_slice q) [0; 1; 2; 3] ≡ₚ map (suit_slice p) [0; 1; 2; 3] →
  evaluate q = evaluate p.
Proof.
  intros Hperm. rewrite !evaluate_unfold.
  assert (∀ r, octet_of suited_TABLE r
               = foldr Z.add 0 (map (λ k, fst (suited_TABLE k))
                                    (map (suit_slice r) [0; 1; 2; 3]))) as Ho by done.
  assert (∀ r, best_flush_value suited_TABLE r
               = foldr Z.min 9999 (map (λ k, snd (suited_TABLE k))
                                       (map (suit_slice r) [0; 1; 2; 3]))) as Hb by done.
  rewrite !Ho, !Hb.
  rewrite (foldr_add_Permutation _ _ (Permutation_map _ Hperm)).
  by rewrite (foldr_min_Permutation _ _ _ (Permutation_map _ Hperm)).
Qed.

(** ** The accumulator of [_func] *)

Lemma scores_from_Permutation present futures futures' :
  futures ≡ₚ futures' →
  ∀ sums, scores_from sums present futures = scores_from sums present futures'.
Proof.
  autounfold with scoring.
  induction 1 as [|f l l' _ IH|f g l|l l' l'' _ IH1 _ IH2]; intros sums; cbn [foldl].
  - done.
  - apply IH.
  - by rewrite vadd_swap.
  - by rewrite IH1.
Qed.

(** X13. The sums that [_func] returns do not depend on the order of the
    future patterns. *)
Theorem func_order_independent present futures futures' :
  futures ≡ₚ futures' → _func present futures = _func present futures'.
Proof.
  intros Hperm. rewrite !_func_scores. f_equal. unfold_scores.
  by apply scores_from_Permutation.
Qed.

(** X14. Running [_func] on two lists of future patterns one after the
    other is adding, element by element, its results on each: this is what
    the chunked computation relies on. *)
Theorem func_app present futures1 futures2 :
  _func present (futures1 ++ futures2)
  = (sums1 ← _func present futures1;
     sums2 ← _func present futures2;
     Ok (vadd sums1 sums2)).
Proof.
  rewrite !_func_scores, !bind_Ok. f_equal. unfold_scores.
  rewrite scores_from_app.
  rewrite (scores_from_vadd _ _ present futures2 (scores_from _ present futures1)).
  - done.
  - apply length_scores_from, length_replicate.
Qed.


Lemma scores_from_lookup_eq present futures i j :
  (∀ f, f ∈ futures → ranks_of present f !! i = ranks_of present f !! j) →
  ∀ sums, sums !! i = sums !! j →
          scores_from sums present futures !! i = scores_from sums present futures !! j.
Proof.
  autounfold with scoring.
  induction futures as [|f futures IH]; intros Hranks sums Hsums; [done|].
  cbn [foldl]. apply IH.
  - intros g Hg. apply Hranks. by right.
  - unfold vadd. rewrite !lookup_zip_with, Hsums.
    by rewrite (points_lookup_eq _ i j) by (apply Hranks; by left).
Qed.

(** X16. Two holdings that have the same rank on every completed board get
    the same sum from [_func]. *)
Theorem equal_ranks_equal_sums present futures i j :
  (i < length present)%nat → (j < length present)%nat →
  (∀ f, f ∈ futures → ranks_of present f !! i = ranks_of present f !! j) →
  ∃ sums, _func present futures = Ok sums ∧ sums !! i = sums !! j.
Proof.
  intros Hi Hj Hranks. exists (scores present futures). split; [apply _func_scores|].
  unfold_scores. apply scores_from_lookup_eq; [done|].
  by rewrite !lookup_replicate_2.
Qed.

Lemma scores_from_lookup_loser present futures i :
  (∀ f, f ∈ futures →
        ∃ k rank_i rank_k, ranks_of present f !! i = Some rank_i
                           ∧ ranks_of present f !! k = Some rank_k ∧ rank_k < rank_i) →
  ∀ sums s, sums !! i = Some s → scores_from sums present futures !! i = Some s.
Proof.
  autounfold with scoring.
  induction futures as [|f futures IH]; intros Hranks sums s Hs; [done|].
  cbn [foldl]. apply IH.
  - intros g Hg. apply Hranks. by right.
  - destruct (Hranks f) as (k & rank_i & rank_k & Hi & Hk & Hlt); [by left|].
    unfold vadd. rewrite lookup_zip_with, Hs.
    rewrite (points_lookup_loser _ _ _ _ _ Hi Hk Hlt). cbn. by rewrite Qcplus_0_r.
Qed.

(** X17. A holding that, on every completed board, is outranked by some
    other holding gets the sum 0 from [_func]. *)
Theorem outranked_holding_gets_nothing present futures i :
  (i < length present)%nat →
  (∀ f, f ∈ futures →
        ∃ k rank_i rank_k, ranks_of present f !! i = Some rank_i
                           ∧ ranks_of present f !! k = Some rank_k ∧ rank_k < rank_i) →
  ∃ sums, _func present futures = Ok sums ∧ sums !! i = Some 0%Qc.
Proof.
  intros Hi Hranks. exists (scores present futures). split; [apply _func_scores|].
  unfold_scores. apply scores_from_lookup_loser; [done|].
  by rewrite lookup_replicate_2.
Qed.

(** ** Calls at the edge of the preconditions *)

(** X18. Once the patterns are built (every token known, at most five
    board tokens), [calculate_equity] returns the empty vector when there is
    no active hand, and raises [ZeroDivisionError] when there are active hands
    but fewer free cards than cards to deal. *)
Theorem calculate_equity_degenerate active_hands mucked_hands board mask :
  _make_bit_pattern [Lst active_hands; Lst mucked_hands; Str board] = Ok mask →
  (length (split board) ≤ 5)%nat →
  (active_hands = [] → calculate_equity active_hands mucked_hands board = Ok [])
  ∧ (active_hands ≠ [] →
     (52 - popcount mask < 5 - length (split board))%nat →
     calculate_equity active_hands mucked_hands board = Raise ZeroDivisionError).
Proof.
  intros Hmask Hlen.
  rewrite calculate_equity_scores, (patterns_Ok _ _ _ _ Hmask Hlen), bind_Ok.
  split.
  - intros ->. cbn [map].
    match goal with |- rmap _ ?sc = _ => assert (sc = []) as -> end; [|done].
    apply nil_length_inv. unfold_scores. by rewrite length_scores_from.
  - intros Hne Hfew.
    rewrite combinations_short
      by (rewrite length_free_positions by (by eapply mask_cardset); lia).
    cbn [map length]. rewrite rmap_truediv_0, decide_False; [done|].
    intros Hnil. apply Hne.
    assert (length (scores (map (present_of board) active_hands) [])
            = length active_hands) as Hl.
    { unfold_scores. rewrite length_scores_from by by rewrite length_replicate.
      apply length_map. }
    rewrite Hnil in Hl. by destruct active_hands.
Qed.

(** X19. A single active holding, on a call whose patterns are built and
    whose enumeration is not empty, gets the equity 1. *)
Theorem lone_holding_equity hand mucked_hands board mask :
  _make_bit_pattern [Lst [hand]; Lst mucked_hands; Str board] = Ok mask →
  (length (split board) ≤ 5)%nat →
  (5 - length (split board) ≤ 52 - popcount mask)%nat →
  calculate_equity [hand] mucked_hands board = Ok [1%Qc].
Proof.
  intros Hmask Hlen Hspace.
  rewrite calculate_equity_scores, (patterns_Ok _ _ _ _ Hmask Hlen), bind_Ok.
  match goal with |- context [truediv _ (length ?fs)] => set (futures := fs) end.
  assert (length futures ≠ 0%nat) as Hfut.
  { unfold futures. rewrite length_map, length_combinations.
    rewrite length_free_positions by by eapply mask_cardset.
    pose proof (binomial_pos _ _ Hspace). lia. }
  rewrite rmap_truediv by done. f_equal. cbn [map].
  set (present := [present_of board hand]).
  assert (length (scores present futures) = 1%nat) as Hone
    by (unfold_scores; by rewrite length_scores_from by by rewrite length_replicate).
  assert (Qc_sum (scores present futures) = Qc_of_Z (Z.of_nat (length futures))) as Hsum.
  { unfold_scores. by rewrite Qc_sum_scores_from, Qc_sum_zeros, Qcplus_0_l
      by (try done; by rewrite length_replicate). }
  destruct (scores present futures) as [|s [|??]]; try done.
  rewrite Qc_sum_cons in Hsum. change (Qc_sum []) with 0%Qc in Hsum.
  rewrite Qcplus_0_r in Hsum. subst s. cbn [map]. f_equal.
  unfold Qcdiv. apply Qcmult_inv_r. by apply Qc_of_nat_ne_0.
Qed.

(** X20. The mucked hands count through the set of their card tokens only:
    with every token known, regrouping, reordering or repeating the mucked
    tokens changes nothing in what [calculate_equity] returns. *)
Theorem mucked_hands_as_a_set active_hands mucked_hands mucked_hands' board :
  Forall known (tokens [Lst active_hands; Lst mucked_hands; Str board]) →
  (∀ card, card ∈ concat (map split mucked_hands')
           ↔ card ∈ concat (map split mucked_hands)) →
  calculate_equity active_hands mucked_hands' board
  = calculate_equity active_hands mucked_hands board.
Proof.
  intros Hk Hsame.
  assert (∀ card, card ∈ tokens [Lst active_hands; Lst mucked_hands'; Str board]
                  ↔ card ∈ tokens [Lst active_hands; Lst mucked_hands; Str board]) as Ht.
  { intros card. rewrite !tokens_call, !elem_of_app, Hsame. done. }
  assert (Forall known (tokens [Lst active_hands; Lst mucked_hands'; Str board])) as Hk'.
  { rewrite Forall_forall in Hk |- *. intros card Hc. by apply Hk, Ht. }
  assert (patterns active_hands mucked_hands' board
          = patterns active_hands mucked_hands board) as Hpat.
  { unfold patterns.
    by rewrite !_make_bit_pattern_known, (union_positions_same_cards _ _ Ht) by done. }
  unfold_engine. by rewrite Hpat.
Qed.

End EngineExtras.

Lemma evaluate_suit_symmetry_witness :
  evaluate sample_suited sample_offsuit
           (1537 + 512 * 2 ^ 13 + 4096 * 2 ^ 26 + 2050 * 2 ^ 39)
  = evaluate sample_suited sample_offsuit 0x4014000c02200.
Proof.
  apply evaluate_suit_symmetry. vm_compute. apply perm_swap.
Defined.

Lemma func_order_independent_witness :
  _func sample_suited sample_offsuit [0x1003; 0x806] [0x4014000c00000; 0x14000c00001]
  = _func sample_suited sample_offsuit [0x1003; 0x806] [0x14000c00001; 0x4014000c00000].
Proof. apply func_order_independent. apply perm_swap. Defined.

Lemma equal_ranks_equal_sums_witness :
  ∃ sums, _func sample_suited sample_offsuit [3; 3] [4; 8] = Ok sums
          ∧ sums !! 0%nat = sums !! 1%nat.
Proof.
  apply equal_ranks_equal_sums; [cbn; lia|cbn; lia|]. intros f _. reflexivity.
Defined.

Lemma outranked_holding_gets_nothing_witness :
  ∃ sums, _func sample_suited sample_offsuit [1; 2] [4] = Ok sums
          ∧ sums !! 0%nat = Some 0%Qc.
Proof.
  apply outranked_holding_gets_nothing; [cbn; lia|].
  intros f ->%list_elem_of_singleton.
  exists 1%nat, 7457, 7456. by vm_compute.
Defined.

Lemma calculate_equity_degenerate_witness :
  calculate_equity sample_suited sample_offsuit crowded_hands [] [] = Raise ZeroDivisionError.
Proof.
  edestruct (calculate_equity_degenerate sample_suited sample_offsuit crowded_hands [] [])
    as [_ Hzero].
  - vm_compute. reflexivity.
  - cbn. lia.
  - apply Hzero; [done|]. vm_compute. lia.
Defined.

Lemma lone_holding_equity_witness :
  calculate_equity sample_suited sample_offsuit
                   [token suits_a 0 12 ++ lit " " ++ token suits_a 3 12] [] sample_board
  = Ok [1%Qc].
Proof.
  eapply lone_holding_equity.
  - vm_compute. reflexivity.
  - by vm_compute.
  - vm_compute. lia.
Defined.

Lemma mucked_hands_as_a_set_witness :
  calculate_equity sample_suited sample_offsuit sample_hands
                   [token suits_a 2 0 ++ lit " " ++ token suits_a 2 1;
                    token suits_a 2 1] sample_board
  = calculate_equity sample_suited sample_offsuit sample_hands
                     [token suits_a 2 1 ++ lit " " ++ token suits_a 2 0] sample_board.
Proof.
  apply mucked_hands_as_a_set.
  - apply (bool_decide_unpack _). by vm_compute.
  - intros card.
    replace (concat (map split [token suits_a 2 0 ++ lit " " ++ token suits_a 2 1;
                                token suits_a 2 1]))
      with [token suits_a 2 0; token suits_a 2 1; token suits_a 2 1] by by vm_compute.
    replace (concat (map split [token suits_a 2 1 ++ lit " " ++ token suits_a 2 0]))
      with [token suits_a 2 1; token suits_a 2 0] by by vm_compute.
    rewrite !elem_of_cons. intuition.
Defined.

(** ** Cards, not tokens *)

(** X21. With every token known, the pattern depends on the set of bit
    positions of the tokens only: the same cards written with other tokens,
    in the other suit alphabet for one, give the same pattern. *)
Theorem make_bit_pattern_same_cards args args' :
  Forall known (tokens args) → Forall known (tokens args') →
  (∀ pos, pos ∈ positions (tokens args') ↔ pos ∈ positions (tokens args)) →
  _make_bit_pattern args' = _make_bit_pattern args.
Proof.
  intros Hk Hk' Hsame. rewrite !_make_bit_pattern_known by done. f_equal.
  apply Z.bits_inj'. intros j _. apply eq_true_iff_eq.
  rewrite !union_of_bits_testbit, Hsame; [done|..];
    (eapply Forall_impl; [apply positions_range|]; cbn; lia).
Qed.

Lemma make_bit_pattern_same_cards_witness :
  _make_bit_pattern [Str (token suits_b 0 12 ++ lit " " ++ token suits_a 1 3)]
  = _make_bit_pattern [Lst [token suits_b 1 3; token suits_a 0 12]].
Proof.
  apply make_bit_pattern_same_cards.
  - apply (bool_decide_unpack _). by vm_compute.
  - apply (bool_decide_unpack _). by vm_compute.
  - intros pos.
    replace (positions (tokens [Str (token suits_b 0 12 ++ lit " " ++ token suits_a 1 3)]))
      with [12; 16] by by vm_compute.
    replace (positions (tokens [Lst [token suits_b 1 3; token suits_a 0 12]]))
      with [16; 12] by by vm_compute.
    rewrite !elem_of_cons. intuition.
Defined.

(** ** The worker count *)

Section WorkerCount.

Context (suited_TABLE : Z → Z * Z) (offsuit_TABLE : Z → Z).

Local Abbreviation scores := (scores suited_TABLE offsuit_TABLE).
Local Abbreviation calculate_equity_in_parallel :=
  (calculate_equity_in_parallel suited_TABLE offsuit_TABLE).

(** What the chunked computation returns, without the chunks. *)
Lemma calculate_equity_in_parallel_scores cpu_count active_hands mucked_hands board :
  (1 ≤ cpu_count)%nat →
  calculate_equity_in_parallel cpu_count active_hands mucked_hands board
  = ('(present_patterns, future_patterns) ← patterns active_hands mucked_hands board;
     rmap (λ sum, truediv sum (length future_patterns))
          (scores present_patterns future_patterns)).
Proof.
  intros Hcpu. unfold_engine.
  destruct (patterns active_hands mucked_hands board)
    as [e|[present futures]] eqn:Hpat; [done|].
  apply patterns_length in Hpat as Hlen.
  rewrite !bind_Ok, decide_False, bind_Ok by lia.
  rewrite (rmap_Ok _ (λ '(p, c), scores p c)), bind_Ok, map_map, <- Hlen.
  - rewrite reduce_chunks, bind_Ok by apply length_replicate.
    by rewrite concat_chunk.
  - intros [p c] _. apply _func_scores.
Qed.

(** X22. What [calculate_equity_in_parallel] returns does not depend on
    the number of workers, as long as there is one. *)
Theorem worker_count_irrelevant cpu_count cpu_count' active_hands mucked_hands board :
  (1 ≤ cpu_count)%nat → (1 ≤ cpu_count')%nat →
  calculate_equity_in_parallel cpu_count active_hands mucked_hands board
  = calculate_equity_in_parallel cpu_count' active_hands mucked_hands board.
Proof.
  intros H1 H2. by rewrite !calculate_equity_in_parallel_scores.
Qed.

End WorkerCount.

Lemma worker_count_irrelevant_witness :
  calculate_equity_in_parallel sample_suited sample_offsuit 2 sample_hands [] sample_board
  = calculate_equity_in_parallel sample_suited sample_offsuit 5 sample_hands [] sample_board.
Proof. apply worker_count_irrelevant; lia. Defined.
